(** * RSVP admission of the mini event planner

    A shallow embedding of the RSVP endpoint of
    [backend/routes/events.js] (the [POST /:id/rsvp] handler) together
    with the three MongoDB calls it issues, and the properties of the
    capacity-bounded, duplicate-free membership service built on them.
    The create, edit and delete routes of the same file and the parts of
    the client that decide what is sent (the event card, the dashboard,
    the session kept in the browser) follow, with what they guarantee
    alone and against the RSVP endpoint.

    The collection of events is a finite map from event identifiers to
    documents.  The handler is a small tree of store calls: every
    [await] of the source is one node, so that the calls of several
    requests can be interleaved and every store call is one atomic step
    on the collection. *)

From stdpp Require Import gmap strings list.
From Stdlib Require Import ZArith Lia Ascii.

Local Open Scope Z_scope.

(** ** Documents *)

Module Model.

(** Modelled from the spec: the schema [models/Event.js] is not part of
    the sources at hand.  The fields are the ones the routes read and
    write: the create route stores [title], [description], [date],
    [location], [capacity], [image] and [organizer], and the RSVP route
    uses [attendees] (the spec's [members]) and [capacity].  Identifiers
    are opaque and compared by value, here strings. *)
Record Event : Type := mkEvent {
  title : string;
  description : string;
  date : string;
  location : string;
  capacity : Z;
  image : string;
  organizer : string;
  attendees : list string
}.

(** The collection: [_id] to document. *)
Abbreviation store := (gmap string Event).

Definition set_attendees (l : list string) (ev : Event) : Event :=
  {| title := title ev; description := description ev; date := date ev;
     location := location ev; capacity := capacity ev; image := image ev;
     organizer := organizer ev; attendees := l |}.

(** [{ $push: { attendees: userId } }] *)
Definition push_attendees (userId : string) (ev : Event) : Event :=
  set_attendees (attendees ev ++ [userId]) ev.

(** [{ $pull: { attendees: userId } }]: every matching element goes. *)
Definition pull_attendees (userId : string) (ev : Event) : Event :=
  set_attendees (filter (λ x, x ≠ userId) (attendees ev)) ev.

(** [currentEvent.attendees.includes(userId)] *)
Definition includes (l : list string) (userId : string) : bool :=
  bool_decide (userId ∈ l).

(** The filter of the conditional update, without the [_id] part:
    [$expr: { $lt: [{ $size: "$attendees" }, "$capacity"] }] and
    [attendees: { $ne: userId }]. *)
Definition join_filter (userId : string) (ev : Event) : bool :=
  bool_decide (Z.of_nat (length (attendees ev)) < capacity ev)
  && negb (includes (attendees ev) userId).

(** ** Store calls *)

(** [Event.findOneAndUpdate({_id, $expr, attendees: {$ne}}, {$push}, {new: true})]:
    the filter and the update are one step; the updated document is
    returned, or [null] when no document matches. *)
Definition findOneAndUpdate (eventId userId : string) (db : store)
  : store * option Event :=
  match db !! eventId with
  | Some ev =>
      if join_filter userId ev
      then let ev' := push_attendees userId ev in
           (<[eventId := ev']> db, Some ev')
      else (db, None)
  | None => (db, None)
  end.

(** [Event.findById(eventId)] *)
Definition findById (eventId : string) (db : store) : store * option Event :=
  (db, db !! eventId).

(** [Event.findByIdAndUpdate(eventId, {$pull}, {new: true})] *)
Definition findByIdAndUpdate (eventId userId : string) (db : store)
  : store * option Event :=
  match db !! eventId with
  | Some ev =>
      let ev' := pull_attendees userId ev in
      (<[eventId := ev']> db, Some ev')
  | None => (db, None)
  end.

Inductive dbcall : Type :=
  | FindOneAndUpdate (eventId userId : string)
  | FindById (eventId : string)
  | FindByIdAndUpdate (eventId userId : string).

(** The document a call addresses: each call selects by [_id]. *)
Definition call_event (c : dbcall) : string :=
  match c with
  | FindOneAndUpdate e _ | FindById e | FindByIdAndUpdate e _ => e
  end.

Definition exec_call (c : dbcall) (db : store) : store * option Event :=
  match c with
  | FindOneAndUpdate e u => findOneAndUpdate e u db
  | FindById e => findById e db
  | FindByIdAndUpdate e u => findByIdAndUpdate e u db
  end.

(** ** Requests and responses *)

(** The value of [req.body.action]; [JUndefined] when the field is
    missing. *)
Inductive jsval : Type :=
  | JUndefined
  | JNull
  | JBool (b : bool)
  | JNum (n : Z)
  | JStr (s : string)
  | JObject.

#[global] Instance jsval_eq_dec : EqDecision jsval.
Proof. solve_decision. Defined.

(** [v === "lit"] for a string literal. *)
Definition strict_eq_str (v : jsval) (lit : string) : bool :=
  match v with
  | JStr s => bool_decide (s = lit)
  | _ => false
  end.

Inductive body : Type :=
  | Message (message : string)
  | MessageAttendees (message : string) (attendees : list string)
  | Error (error : string).

Record response : Type := mkResponse { status : Z; json : body }.

(** [err.message] of the [TypeError] raised by reading [.attendees] of
    [null]. *)
Definition null_attendees_message : string :=
  "Cannot read properties of null (reading 'attendees')".

(** ** The handler *)

Inductive handler : Type :=
  | Respond (r : response)
  | Await (c : dbcall) (k : option Event → handler).

(** The rejection branch, after [findById] has answered. *)
Definition classify (userId : string) (currentEvent : option Event) : response :=
  match currentEvent with
  | None => mkResponse 404 (Message "Event not found")
  | Some cur =>
      if includes (attendees cur) userId
      then mkResponse 400 (Message "Already RSVPed")
      else if bool_decide (Z.of_nat (length (attendees cur)) >= capacity cur)
      then mkResponse 400 (Message "Event is full")
      else mkResponse 400 (Message "RSVP Failed")
  end.

(** [router.post("/:id/rsvp", auth, async (req, res) => ...)] with
    [userId = req.user.id] (set by the [auth] middleware),
    [eventId = req.params.id] and [action = req.body.action], where
    [req.body] is the object parsed by [express.json()].  Identifiers
    are taken as well-formed and the store as reachable: a failure of
    the driver is not part of the model. *)
Definition rsvp (userId eventId : string) (action : jsval) : handler :=
  if strict_eq_str action "join" then
    Await (FindOneAndUpdate eventId userId) (λ event,
      match event with
      | None =>
          Await (FindById eventId) (λ currentEvent,
            Respond (classify userId currentEvent))
      | Some ev =>
          Respond (mkResponse 200
                     (MessageAttendees "RSVP Successful" (attendees ev)))
      end)
  else if strict_eq_str action "leave" then
    Await (FindByIdAndUpdate eventId userId) (λ event,
      match event with
      | Some ev =>
          Respond (mkResponse 200
                     (MessageAttendees "RSVP Cancelled" (attendees ev)))
      | None =>
          (* [event.attendees] throws; the [catch] answers *)
          Respond (mkResponse 500 (Error null_attendees_message))
      end)
  else
    Respond (mkResponse 400 (Message "Invalid action")).

(** One atomic step of a request in flight. *)
Definition step (h : handler) (db : store) : store * handler :=
  match h with
  | Respond r => (db, Respond r)
  | Await c k => let '(db', res) := exec_call c db in (db', k res)
  end.

(** A request served without interference. *)
Fixpoint run (h : handler) (db : store) : store * response :=
  match h with
  | Respond r => (db, r)
  | Await c k => let '(db', res) := exec_call c db in run (k res) db'
  end.

(** The store calls a request issues when served without interference. *)
Fixpoint calls (h : handler) (db : store) : list dbcall :=
  match h with
  | Respond _ => []
  | Await c k => let '(db', res) := exec_call c db in c :: calls (k res) db'
  end.

(** The outcomes of the membership service, as the handler words them. *)
Definition RsvpSuccessful (members : list string) : response :=
  mkResponse 200 (MessageAttendees "RSVP Successful" members).
Definition RsvpCancelled (members : list string) : response :=
  mkResponse 200 (MessageAttendees "RSVP Cancelled" members).
Definition EventNotFound : response := mkResponse 404 (Message "Event not found").
Definition AlreadyMember : response := mkResponse 400 (Message "Already RSVPed").
Definition CapacityExceeded : response := mkResponse 400 (Message "Event is full").
Definition AdmissionRejected : response := mkResponse 400 (Message "RSVP Failed").
Definition InvalidAction : response := mkResponse 400 (Message "Invalid action").
Definition ServerError (msg : string) : response := mkResponse 500 (Error msg).

(** Does the response report a successful join? *)
Definition is_successful (r : response) : bool :=
  match r with
  | mkResponse st (MessageAttendees m _) =>
      bool_decide (st = 200) && bool_decide (m = "RSVP Successful")
  | _ => false
  end.

(** ** Sequences of requests *)

Record request : Type := mkRequest {
  req_user : string;
  req_event : string;
  req_action : jsval
}.

Definition serve (q : request) : handler :=
  rsvp (req_user q) (req_event q) (req_action q).

Definition Join (eventId userId : string) : request :=
  mkRequest userId eventId (JStr "join").
Definition Leave (eventId userId : string) : request :=
  mkRequest userId eventId (JStr "leave").

(** Requests served one after the other. *)
Fixpoint run_requests (qs : list request) (db : store) : store * list response :=
  match qs with
  | [] => (db, [])
  | q :: qs' =>
      let '(db1, r) := run (serve q) db in
      let '(db2, rs) := run_requests qs' db1 in
      (db2, r :: rs)
  end.

(** Requests in flight together: the schedule names, step after step,
    the request whose next store call is executed. *)
Fixpoint run_schedule (sched : list nat) (db : store) (pool : list handler)
  : store * list handler :=
  match sched with
  | [] => (db, pool)
  | i :: sched' =>
      match pool !! i with
      | Some h =>
          let '(db', h') := step h db in
          run_schedule sched' db' (<[i := h']> pool)
      | None => run_schedule sched' db pool
      end
  end.

(** The answer of a request in flight, once it has one. *)
Definition answered (h : handler) : option response :=
  match h with
  | Respond r => Some r
  | Await _ _ => None
  end.

Definition joined (h : handler) : bool :=
  match answered h with
  | Some r => is_successful r
  | None => false
  end.

(** How many answers report a successful join. *)
Definition count_successful (rs : list response) : nat :=
  length (filter (λ r, is_successful r = true) rs).

Definition count_joined (pool : list handler) : nat :=
  length (filter (λ h, joined h = true) pool).

(** I1 for the document of [e], whose capacity is [C]. *)
Definition within_capacity (e : string) (C : Z) (db : store) : Prop :=
  ∃ ev, db !! e = Some ev ∧ capacity ev = C
        ∧ Z.of_nat (length (attendees ev)) ≤ C.

(** I2 for the document of [e]. *)
Definition duplicate_free (e : string) (db : store) : Prop :=
  ∃ ev, db !! e = Some ev ∧ NoDup (attendees ev).

(** The states of a request in flight when it is a join of [e]: not
    started, refused and about to read, or answered. *)
Definition in_flight (e : string) (h : handler) : Prop :=
  (∃ u, h = rsvp u e (JStr "join"))
  ∨ (∃ u, h = Await (FindById e) (λ cur, Respond (classify u cur)))
  ∨ (∃ r, h = Respond r).

(** Joins of [e] in flight, from [M] attendees and capacity [C]: the
    attendees are the [M] of the start and one per accepted join, and a
    join was accepted only within the capacity. *)
Definition balanced (e : string) (C M : Z) (db : store) (pool : list handler)
  : Prop :=
  Forall (in_flight e) pool
  ∧ ∃ ev, db !! e = Some ev ∧ capacity ev = C
     ∧ Z.of_nat (length (attendees ev)) = M + Z.of_nat (count_joined pool)
     ∧ (count_joined pool = 0%nat ∨ M + Z.of_nat (count_joined pool) ≤ C).

(** The sequences of store calls a request can issue, whatever the store
    answers. *)
Inductive issues : handler → list dbcall → response → Prop :=
  | issues_respond r : issues (Respond r) [] r
  | issues_await c k res cs r :
      issues (k res) cs r → issues (Await c k) (c :: cs) r.

End Model.

Import Model.

(** ** The other routes of [backend/routes/events.js] *)

Module Routes.

(** The body of an edit request, as the fields it assigns.  The body is
    taken as typed for the schema: Mongoose sets the fields the body
    has, keeps the others and drops what the schema does not know. *)
Record patch : Type := mkPatch {
  p_title : option string;
  p_description : option string;
  p_date : option string;
  p_location : option string;
  p_capacity : option Z;
  p_image : option string;
  p_organizer : option string;
  p_attendees : option (list string)
}.

Definition apply_patch (p : patch) (ev : Event) : Event :=
  {| title := default (title ev) (p_title p);
     description := default (description ev) (p_description p);
     date := default (date ev) (p_date p);
     location := default (location ev) (p_location p);
     capacity := default (capacity ev) (p_capacity p);
     image := default (image ev) (p_image p);
     organizer := default (organizer ev) (p_organizer p);
     attendees := default (attendees ev) (p_attendees p) |}.

(** [Event.findByIdAndUpdate(req.params.id, req.body, { new: true })] *)
Definition findByIdAndUpdate_body (eventId : string) (p : patch) (db : store)
  : store * option Event :=
  match db !! eventId with
  | Some ev =>
      let ev' := apply_patch p ev in
      (<[eventId := ev']> db, Some ev')
  | None => (db, None)
  end.

(** [event.deleteOne()] on the document read under [eventId]. *)
Definition deleteOne (eventId : string) (db : store) : store :=
  delete eventId db.

(** What the create route hands to [new Event(...)]: the text fields of
    the multipart body as they came ([None] when a field is missing),
    the hosted image and the caller. *)
Record draft : Type := mkDraft {
  d_title : option string;
  d_description : option string;
  d_date : option string;
  d_location : option string;
  d_capacity : option string;
  d_image : string;
  d_organizer : string
}.

(** What the route does not decide itself: the answer of the image host
    to an upload ([None] when the request or the reading of
    [data.data.url] throws), the casting and validation of a draft by
    the schema ([None] when [save] throws), and the [_id] the driver
    gives the new document. *)
Record driver : Type := mkDriver {
  imgbb : string → option string;
  cast : draft → option Event;
  new_id : string
}.

(** [newEvent.save()]: an insert; a draft the schema refuses and an
    [_id] already taken make it throw. *)
Definition save (w : driver) (d : draft) (db : store)
  : store * option (string * Event) :=
  match cast w d with
  | None => (db, None)
  | Some ev =>
      match db !! new_id w with
      | Some _ => (db, None)
      | None => (<[new_id w := ev]> db, Some (new_id w, ev))
      end
  end.

Inductive payload : Type :=
  | PMessage (message : string)
  | PError (error : string)
  | PDoc (doc : option (string * Event)).

Record reply : Type := mkReply { code : Z; sent : payload }.

(** A route as the tree of its [await]s. *)
Inductive route : Type :=
  | Reply (r : reply)
  | AwaitFindById (eventId : string) (k : option Event → route)
  | AwaitFindByIdAndUpdate (eventId : string) (body : patch)
      (k : option Event → route)
  | AwaitDeleteOne (eventId : string) (k : route)
  | AwaitUpload (file : string) (k : option string → route)
  | AwaitSave (d : draft) (k : option (string * Event) → route).

(** The text fields of [req.body] of the create route. *)
Record form : Type := mkForm {
  f_title : option string;
  f_description : option string;
  f_date : option string;
  f_location : option string;
  f_capacity : option string
}.

(** [router.post("/", auth, upload.single("image"), ...)] with
    [userId = req.user.id] and [file = req.file] ([None] when the
    request carries no image). *)
Definition create_event (userId : string) (body : form) (file : option string)
  : route :=
  match file with
  | None => Reply (mkReply 400 (PMessage "Image is required"))
  | Some f =>
      AwaitUpload f (λ imgbbResponse,
        match imgbbResponse with
        | None => Reply (mkReply 500 (PError "Server Error"))
        | Some imageUrl =>
            AwaitSave
              (mkDraft (f_title body) (f_description body) (f_date body)
                 (f_location body) (f_capacity body) imageUrl userId)
              (λ savedEvent,
                 match savedEvent with
                 | None => Reply (mkReply 500 (PError "Server Error"))
                 | Some doc => Reply (mkReply 201 (PDoc (Some doc)))
                 end)
        end)
  end.

(** [router.put("/:id", auth, ...)] *)
Definition edit_event (userId eventId : string) (body : patch) : route :=
  AwaitFindById eventId (λ event,
    match event with
    | None => Reply (mkReply 404 (PMessage "Event not found"))
    | Some ev =>
        if bool_decide (organizer ev ≠ userId)
        then Reply (mkReply 401 (PMessage "User not authorized"))
        else
          AwaitFindByIdAndUpdate eventId body (λ updatedEvent,
            Reply (mkReply 200 (PDoc (pair eventId <$> updatedEvent))))
    end).

(** [router.delete("/:id", auth, ...)] *)
Definition delete_event (userId eventId : string) : route :=
  AwaitFindById eventId (λ event,
    match event with
    | None => Reply (mkReply 404 (PMessage "Event not found"))
    | Some ev =>
        if bool_decide (organizer ev ≠ userId)
        then Reply (mkReply 401 (PMessage "User not authorized"))
        else
          AwaitDeleteOne eventId
            (Reply (mkReply 200 (PMessage "Event removed")))
    end).

(** One [await] of a route. *)
Definition step_route (w : driver) (r : route) (db : store) : store * route :=
  match r with
  | Reply a => (db, Reply a)
  | AwaitFindById e k => (db, k (db !! e))
  | AwaitFindByIdAndUpdate e p k =>
      let '(db', res) := findByIdAndUpdate_body e p db in (db', k res)
  | AwaitDeleteOne e k => (deleteOne e db, k)
  | AwaitUpload f k => (db, k (imgbb w f))
  | AwaitSave d k => let '(db', res) := save w d db in (db', k res)
  end.

(** A route served without interference. *)
Fixpoint run_route (w : driver) (r : route) (db : store) : store * reply :=
  match r with
  | Reply a => (db, a)
  | AwaitFindById e k => run_route w (k (db !! e)) db
  | AwaitFindByIdAndUpdate e p k =>
      let '(db', res) := findByIdAndUpdate_body e p db in run_route w (k res) db'
  | AwaitDeleteOne e k => run_route w k (deleteOne e db)
  | AwaitUpload f k => run_route w (k (imgbb w f)) db
  | AwaitSave d k => let '(db', res) := save w d db in run_route w (k res) db'
  end.

(** What a route asks of the store and of the image host. *)
Inductive effect : Type :=
  | Read (eventId : string)
  | Update (eventId : string) (body : patch)
  | Delete (eventId : string)
  | Upload (file : string)
  | Insert (d : draft).

(** The effects of a route served without interference, in order. *)
Fixpoint effects (w : driver) (r : route) (db : store) : list effect :=
  match r with
  | Reply _ => []
  | AwaitFindById e k => Read e :: effects w (k (db !! e)) db
  | AwaitFindByIdAndUpdate e p k =>
      let '(db', res) := findByIdAndUpdate_body e p db in
      Update e p :: effects w (k res) db'
  | AwaitDeleteOne e k => Delete e :: effects w k (deleteOne e db)
  | AwaitUpload f k => Upload f :: effects w (k (imgbb w f)) db
  | AwaitSave d k =>
      let '(db', res) := save w d db in Insert d :: effects w (k res) db'
  end.

End Routes.

(** ** The pages of the client *)

Module Client.

(** The logged-in user as the client keeps it: [user.id] and
    [user.username]. *)
Record User : Type := mkUser { user_id : string; user_username : string }.

(** The organizer of a listed event, populated by the list route; the
    key [id] is [None] when the object has no such key. *)
Record Organizer : Type := mkOrganizer {
  o__id : string;
  o_id : option string;
  o_username : string
}.

(** An event as the list route sends it, reduced to what the card reads
    to decide. *)
Record EventJson : Type := mkEventJson {
  e__id : string;
  e_organizer : option Organizer;
  e_attendees : list string;
  e_capacity : Z
}.

(** [EventCard]: [isOwner], [isJoined] and [isFull]; [user && ...] with
    no user is falsy. *)
Definition isOwner (user : option User) (event : EventJson) : bool :=
  match user, e_organizer event with
  | Some u, Some o =>
      bool_decide (o__id o = user_id u)
      || bool_decide (o_id o = Some (user_id u))
  | _, _ => false
  end.

Definition isJoined (user : option User) (event : EventJson) : bool :=
  match user with
  | Some u => includes (e_attendees event) (user_id u)
  | None => false
  end.

Definition isFull (event : EventJson) : bool :=
  bool_decide (Z.of_nat (length (e_attendees event)) >= e_capacity event).

(** The RSVP button of the card: rendered for a user only; what a click
    passes to [onRSVP], whether it is disabled, and its text. *)
Record button : Type := mkButton {
  onClick : string * string;
  disabled : bool;
  text : string
}.

Definition rsvp_button (user : option User) (event : EventJson)
  : option button :=
  match user with
  | None => None
  | Some _ =>
      Some {| onClick := (e__id event,
                          if isJoined user event then "leave" else "join");
              disabled := negb (isJoined user event) && isFull event;
              text := if isJoined user event then "Leave Event"
                      else if isFull event then "Event Full"
                      else "Join Event" |}
  end.

(** The card is up to date: it shows the attendees and the capacity of
    the stored event. *)
Definition shows (event : EventJson) (db : store) : Prop :=
  ∃ ev, db !! e__id event = Some ev
        ∧ e_attendees event = attendees ev
        ∧ e_capacity event = capacity ev.

(** The list is up to date: it has a card for an [_id] exactly when the
    store has a document for it. *)
Definition lists (events : list EventJson) (db : store) : Prop :=
  ∀ i, i ∈ e__id <$> events ↔ is_Some (db !! i).

(** JavaScript truthiness of a string that may be [null]. *)
Definition truthy (s : option string) : bool :=
  match s with
  | Some s => negb (bool_decide (s = ""))
  | None => false
  end.

(** What [Dashboard.handleRSVP] does on the page. *)
Inductive reaction : Type :=
  | Alert (text : string)
  | FetchEvents.

(** [err.response?.data?.message || "RSVP Failed"] *)
Definition alert_text (r : response) : string :=
  match json r with
  | Message m | MessageAttendees m _ =>
      if bool_decide (m = "") then "RSVP Failed" else m
  | Error _ => "RSVP Failed"
  end.

(** [Dashboard.handleRSVP(eventId, action)]: [token] is what
    [localStorage] holds under ["auth-token"]; without one no request is
    sent.  The request is served as the RSVP of [userId], the user the
    token stands for, and axios throws on a status outside 2xx. *)
Definition handleRSVP (token : option string) (userId eventId action : string)
    (db : store) : store * reaction :=
  if truthy token then
    let '(db', r) := run (rsvp userId eventId (JStr action)) db in
    if bool_decide (200 ≤ status r < 300)
    then (db', FetchEvents)
    else (db', Alert (alert_text r))
  else (db, Alert "Please login to RSVP").

(** [Dashboard.handleDelete], the local update after the server agreed:
    [events.filter((e) => e._id !== eventId)]. *)
Definition drop_event (eventId : string) (events : list EventJson)
  : list EventJson :=
  filter (λ e, e__id e ≠ eventId) events.

(** [CreateEvent]: the five text inputs, the chosen image, and the
    count of what is filled in,
    [Object.values(formData).filter(Boolean).length + (image ? 1 : 0)]. *)
Record formData : Type := mkFormData {
  fd_title : string;
  fd_description : string;
  fd_date : string;
  fd_location : string;
  fd_capacity : string
}.

Definition progress (fd : formData) (image : option string) : nat :=
  (length (filter (λ v, v ≠ "")
             [fd_title fd; fd_description fd; fd_date fd; fd_location fd;
              fd_capacity fd])
   + (match image with Some _ => 1 | None => 0 end))%nat.

Definition totalFields : nat := 6.

(** ** The session kept in [localStorage] *)

(** [AuthProvider]: the state of the provider and the storage. *)
Record session : Type := mkSession {
  user : option User;
  loading : bool;
  localStorage : gmap string string
}.

(** A page load: the state starts as [useState(null)] and
    [useState(true)] over the storage as it is. *)
Definition mount (ls : gmap string string) : session :=
  mkSession None true ls.

(** [login(token, userData)], with [stringify] for [JSON.stringify]. *)
Definition login (stringify : User → string) (token : string) (userData : User)
    (s : session) : session :=
  mkSession (Some userData) (loading s)
    (<["user" := stringify userData]>
       (<["auth-token" := token]> (localStorage s))).

(** [logout()] *)
Definition logout (s : session) : session :=
  mkSession None (loading s)
    (<["user" := ""]> (<["auth-token" := ""]> (localStorage s))).

(** [checkLoggedIn()], the effect run once after a page load, with
    [parse] for [JSON.parse]: [None] when it throws, otherwise the value
    read, which is [null] or a user. *)
Definition checkLoggedIn (parse : string → option (option User)) (s : session)
  : session :=
  let token := localStorage s !! "auth-token" in
  let ls := match token with
            | None => <["auth-token" := ""]> (localStorage s)
            | Some _ => localStorage s
            end in
  let token := match token with None => Some "" | Some t => Some t end in
  let u :=
    if truthy token then
      let savedUser := ls !! "user" in
      if truthy savedUser then
        match parse (default "" savedUser) with
        | Some v => v
        | None => user s
        end
      else user s
    else user s in
  mkSession u false ls.

(** [ProtectedRoute] *)
Inductive view : Type :=
  | LoadingView
  | NavigateTo (path : string)
  | Children.

Definition ProtectedRoute (s : session) : view :=
  if loading s then LoadingView
  else match user s with
       | None => NavigateTo "/login"
       | Some _ => Children
       end.

End Client.

(** ** Scenarios of the specification *)

Definition sample (cap : Z) (l : list string) : Event :=
  mkEvent "Meetup" "Monthly meetup" "2025-06-15" "Pune" cap "img" "org" l.

(** ** Joins racing for the places of one event *)

(** The state of the join of [u] among joins of [e] that are in flight
    together, by different users who were not attendees: not started;
    refused, before or after its read, with the event full; or
    accepted. *)
Definition join_state (e : string) (ev : Event) (u : string) (h : handler)
  : Prop :=
  (h = rsvp u e (JStr "join") ∧ u ∉ attendees ev)
  ∨ ((h = Await (FindById e) (λ cur, Respond (classify u cur))
      ∨ h = Respond CapacityExceeded)
     ∧ (u ∉ attendees ev)
     ∧ capacity ev ≤ Z.of_nat (length (attendees ev)))
  ∨ (∃ l, h = Respond (RsvpSuccessful l)).

(** The joins of the users [us] in flight, from [M] attendees and
    capacity [C]. *)
Definition filling (e : string) (C M : Z) (us : list string)
    (db : store) (pool : list handler) : Prop :=
  ∃ ev, db !! e = Some ev ∧ capacity ev = C
    ∧ Z.of_nat (length (attendees ev)) = M + Z.of_nat (count_joined pool)
    ∧ M + Z.of_nat (count_joined pool) ≤ C
    ∧ length us = length pool
    ∧ ∀ i u h, us !! i = Some u → pool !! i = Some h → join_state e ev u h.

(** A driver whose image host and schema refuse everything, for the
    routes that never reach them. *)
Definition no_driver : Routes.driver :=
  Routes.mkDriver (λ _, None) (λ _, None) "new".

(** A driver that hosts every image under one address and reads the
    capacity ["3"] of a draft. *)
Definition sample_driver : Routes.driver :=
  Routes.mkDriver (λ _, Some "https://i.ibb.co/x.png")
    (λ d, Some (mkEvent (default "" (Routes.d_title d))
                  (default "" (Routes.d_description d))
                  (default "" (Routes.d_date d))
                  (default "" (Routes.d_location d))
                  3 (Routes.d_image d) (Routes.d_organizer d) []))
    "e9".

Definition sample_form : Routes.form :=
  Routes.mkForm (Some "Meetup") (Some "Monthly meetup") (Some "2025-06-15")
    (Some "Pune") (Some "3").

(** An edit body that sets the capacity alone. *)
Definition capacity_only (c : Z) : Routes.patch :=
  Routes.mkPatch None None None None (Some c) None None None.

Definition carol : Client.User := Client.mkUser "carol" "Carol".

(** The card of the event ["e1"], organized by ["org"]. *)
Definition card (cap : Z) (l : list string) : Client.EventJson :=
  Client.mkEventJson "e1"
    (Some (Client.mkOrganizer "org" None "Olga")) l cap.

(** A serialization of users for the examples: the two fields on two
    lines after a mark; reading splits at the first line break. *)
Fixpoint split_line (s : string) : option (string * string) :=
  match s with
  | EmptyString => None
  | String c rest =>
      if bool_decide (c = "010"%char) then Some (EmptyString, rest)
      else match split_line rest with
           | Some (a, b) => Some (String c a, b)
           | None => None
           end
  end.

Definition sample_stringify (u : Client.User) : string :=
  String "u"%char
    (Client.user_id u ++ String "010"%char (Client.user_username u)).

Definition sample_parse (s : string) : option (option Client.User) :=
  match s with
  | String "u"%char rest =>
      match split_line rest with
      | Some (a, b) => Some (Some (Client.mkUser a b))
      | None => None
      end
  | _ => if bool_decide (s = "null") then Some None else None
  end.

Example scenario_B :
  run (serve (Join "e1" "alice")) {[ "e1" := sample 5 ["alice"] ]}
  = ({[ "e1" := sample 5 ["alice"] ]}, AlreadyMember).
Proof. reflexivity. Qed.

Example scenario_C :
  run_requests [Leave "e1" "bob"; Join "e1" "dave"]
    {[ "e1" := sample 3 ["alice"; "bob"; "carol"] ]}
  = ({[ "e1" := sample 3 ["alice"; "carol"; "dave"] ]},
     [RsvpCancelled ["alice"; "carol"];
      RsvpSuccessful ["alice"; "carol"; "dave"]]).
Proof. vm_compute. reflexivity. Qed.

(** A join refused for lack of room, a leave that frees the place, and
    only then the read of the refused join: no reason is left to see. *)
Example stale_diagnosis :
  run_schedule [0%nat; 1%nat; 0%nat]
    {[ "e1" := sample 1 ["alice"] ]}
    [serve (Join "e1" "bob"); serve (Leave "e1" "alice")]
  = ({[ "e1" := sample 1 [] ]},
     [Respond AdmissionRejected; Respond (RsvpCancelled [])]).
Proof. vm_compute. reflexivity. Qed.

Example scenario_D_join :
  run (serve (Join "ghost-event" "alice")) ∅ = (∅, EventNotFound).
Proof. reflexivity. Qed.

(** Two joins race for the last place: whatever the order of the two
    conditional updates, one is accepted and the other is told the event
    is full. *)
Example scenario_A :
  run_schedule [0%nat; 1%nat; 1%nat]
    {[ "e1" := sample 1 [] ]}
    [serve (Join "e1" "alice"); serve (Join "e1" "bob")]
  = ({[ "e1" := sample 1 ["alice"] ]},
     [Respond (RsvpSuccessful ["alice"]); Respond CapacityExceeded]).
Proof. vm_compute. reflexivity. Qed.

(** ** The store calls, case by case *)

Section StoreCalls.
Implicit Types (db : store) (ev : Event) (e u : string).

Lemma join_filter_true u ev :
  join_filter u ev = true ↔
  ((u ∉ attendees ev) ∧ Z.of_nat (length (attendees ev)) < capacity ev).
Proof.
  unfold join_filter, includes.
  rewrite andb_true_iff, negb_true_iff, bool_decide_eq_true, bool_decide_eq_false.
  tauto.
Qed.

Lemma join_filter_false u ev :
  join_filter u ev = false ↔
  (u ∈ attendees ev ∨ capacity ev ≤ Z.of_nat (length (attendees ev))).
Proof.
  rewrite <- not_true_iff_false, join_filter_true.
  destruct (decide (u ∈ attendees ev)) as [Hin|Hin].
  { split; [intros _; by left | intros _ [? _]; done]. }
  destruct (decide (Z.of_nat (length (attendees ev)) < capacity ev)).
  { split; [intros H; by destruct H | intros [?|?] _; [done | lia]]. }
  split; [intros _; right; lia | intros _ [_ ?]; lia].
Qed.

Lemma findOneAndUpdate_applied e u db ev :
  db !! e = Some ev → join_filter u ev = true →
  findOneAndUpdate e u db
  = (<[e := push_attendees u ev]> db, Some (push_attendees u ev)).
Proof. intros He Hf. unfold findOneAndUpdate. by rewrite He, Hf. Qed.

Lemma findOneAndUpdate_rejected e u db ev :
  db !! e = Some ev → join_filter u ev = false →
  findOneAndUpdate e u db = (db, None).
Proof. intros He Hf. unfold findOneAndUpdate. by rewrite He, Hf. Qed.

Lemma findOneAndUpdate_missing e u db :
  db !! e = None → findOneAndUpdate e u db = (db, None).
Proof. intros He. unfold findOneAndUpdate. by rewrite He. Qed.

(** A rejected conditional update has written nothing. *)
Lemma findOneAndUpdate_null e u db :
  (findOneAndUpdate e u db).2 = None → (findOneAndUpdate e u db).1 = db.
Proof.
  unfold findOneAndUpdate.
  destruct (db !! e) as [ev|]; [|done].
  by destruct (join_filter u ev).
Qed.

(** Every call leaves the documents of the other events alone. *)
Lemma exec_call_frame c db e' :
  call_event c ≠ e' → (exec_call c db).1 !! e' = db !! e'.
Proof.
  destruct c as [e u|e|e u]; simpl; intros Hne;
    unfold findOneAndUpdate, findById, findByIdAndUpdate;
    destruct (db !! e) as [ev|]; simpl; try done.
  - destruct (join_filter u ev); simpl; [by rewrite lookup_insert_ne | done].
  - by rewrite lookup_insert_ne.
Qed.

(** No call creates or deletes a document, or changes a capacity. *)
Lemma exec_call_lookup c db e' :
  match db !! e' with
  | Some ev => ∃ ev', (exec_call c db).1 !! e' = Some ev'
                      ∧ capacity ev' = capacity ev
  | None => (exec_call c db).1 !! e' = None
  end.
Proof.
  destruct (decide (call_event c = e')) as [Heq|Hne].
  2: { rewrite exec_call_frame by done. destruct (db !! e'); eauto. }
  destruct c as [e u|e|e u]; simpl in *; subst e';
    unfold findOneAndUpdate, findById, findByIdAndUpdate.
  - destruct (db !! e) as [ev|] eqn:E; simpl; [|by rewrite E].
    destruct (join_filter u ev); simpl.
    + rewrite lookup_insert_eq. eauto.
    + rewrite E. eauto.
  - simpl. destruct (db !! e); eauto.
  - destruct (db !! e) as [ev|] eqn:E; simpl; [|by rewrite E].
    rewrite lookup_insert_eq. eauto.
Qed.

End StoreCalls.

(** ** One request, served without interference *)

Section OneRequest.
Implicit Types (db : store) (ev : Event) (e u : string).

Lemma run_join e u db :
  run (rsvp u e (JStr "join")) db =
  match db !! e with
  | Some ev =>
      if join_filter u ev
      then (<[e := push_attendees u ev]> db,
            RsvpSuccessful (attendees ev ++ [u]))
      else (db, classify u (Some ev))
  | None => (db, EventNotFound)
  end.
Proof.
  simpl. unfold findOneAndUpdate.
  destruct (db !! e) as [ev|] eqn:E.
  - destruct (join_filter u ev); simpl; [done|].
    unfold findById. by rewrite E.
  - simpl. unfold findById. by rewrite E.
Qed.

Lemma run_leave e u db :
  run (rsvp u e (JStr "leave")) db =
  match db !! e with
  | Some ev =>
      (<[e := pull_attendees u ev]> db,
       RsvpCancelled (filter (λ x, x ≠ u) (attendees ev)))
  | None => (db, ServerError null_attendees_message)
  end.
Proof.
  simpl. unfold findByIdAndUpdate.
  by destruct (db !! e) as [ev|] eqn:E.
Qed.

Lemma run_requests_cons q qs db :
  run_requests (q :: qs) db
  = ((run_requests qs (run (serve q) db).1).1,
     (run (serve q) db).2 :: (run_requests qs (run (serve q) db).1).2).
Proof.
  simpl. destruct (run (serve q) db) as [db1 r]. simpl.
  by destruct (run_requests qs db1).
Qed.

(** In the rejection branch no answer reports a successful join. *)
Lemma classify_not_successful u cur : is_successful (classify u cur) = false.
Proof.
  unfold classify. destruct cur as [cur|]; [|done].
  destruct (includes _ _); [done|]. by destruct (bool_decide _).
Qed.

(** Without interference the generic rejection cannot happen: the
    conditional update was refused for a reason the read still sees. *)
Lemma classify_rejected u ev :
  join_filter u ev = false →
  classify u (Some ev) = (if includes (attendees ev) u
                          then AlreadyMember else CapacityExceeded).
Proof.
  intros Hf. unfold classify.
  destruct (includes (attendees ev) u) eqn:Hi; [done|].
  apply join_filter_false in Hf as [Hin|Hcap].
  - apply bool_decide_eq_false in Hi. tauto.
  - rewrite bool_decide_eq_true_2 by lia. done.
Qed.

End OneRequest.

(** ** Properties of the store kept by every execution *)

Section Preservation.
Variable P : store → Prop.
Hypothesis exec_call_keeps : ∀ c db, P db → P (exec_call c db).1.

Lemma step_keeps h db : P db → P (step h db).1.
Proof.
  destruct h as [r|c k]; simpl; [done|].
  intros HP. specialize (exec_call_keeps c db HP).
  by destruct (exec_call c db).
Qed.

Lemma run_keeps h : ∀ db, P db → P (run h db).1.
Proof.
  induction h as [r|c k IH]; simpl; intros db HP; [done|].
  specialize (exec_call_keeps c db HP).
  destruct (exec_call c db) as [db' res]. by apply IH.
Qed.

Lemma run_requests_keeps qs : ∀ db, P db → P (run_requests qs db).1.
Proof.
  induction qs as [|q qs IH]; simpl; intros db HP; [done|].
  pose proof (run_keeps (serve q) db HP) as H1.
  destruct (run (serve q) db) as [db1 r]. simpl in H1.
  specialize (IH db1 H1).
  by destruct (run_requests qs db1).
Qed.

Lemma run_schedule_keeps sched :
  ∀ db pool, P db → P (run_schedule sched db pool).1.
Proof.
  induction sched as [|i sched IH]; simpl; intros db pool HP; [done|].
  destruct (pool !! i) as [h|]; [|by apply IH].
  pose proof (step_keeps h db HP) as H1.
  destruct (step h db) as [db' h']. by apply IH.
Qed.
End Preservation.

Section Invariants.
Implicit Types (db : store) (ev : Event) (e u : string).

Lemma length_pull u (l : list string) :
  (length (filter (λ x, x ≠ u) l) ≤ length l)%nat.
Proof. apply length_filter. Qed.

Lemma exec_call_within_capacity e C c db :
  within_capacity e C db → within_capacity e C (exec_call c db).1.
Proof.
  intros (ev & He & HC & Hlen). unfold within_capacity.
  destruct (decide (call_event c = e)) as [Heq|Hne].
  2: { rewrite exec_call_frame by done. eauto. }
  destruct c as [e0 u|e0|e0 u]; simpl in *; subst e0;
    unfold findOneAndUpdate, findById, findByIdAndUpdate; rewrite ?He.
  - destruct (join_filter u ev) eqn:Hf; simpl; [|eauto].
    apply join_filter_true in Hf as [_ Hlt].
    rewrite lookup_insert_eq. eexists; split; [done|]. simpl.
    split; [done|]. rewrite length_app. simpl. lia.
  - simpl. eauto.
  - simpl. rewrite lookup_insert_eq. eexists; split; [done|]. simpl.
    split; [done|]. pose proof (length_pull u (attendees ev)). lia.
Qed.

Lemma exec_call_duplicate_free e c db :
  duplicate_free e db → duplicate_free e (exec_call c db).1.
Proof.
  intros (ev & He & Hnd). unfold duplicate_free.
  destruct (decide (call_event c = e)) as [Heq|Hne].
  2: { rewrite exec_call_frame by done. eauto. }
  destruct c as [e0 u|e0|e0 u]; simpl in *; subst e0;
    unfold findOneAndUpdate, findById, findByIdAndUpdate; rewrite ?He.
  - destruct (join_filter u ev) eqn:Hf; simpl; [|eauto].
    apply join_filter_true in Hf as [Hnin _].
    rewrite lookup_insert_eq. eexists; split; [done|]. simpl.
    apply NoDup_app. split; [done|]. split; [|apply NoDup_singleton].
    intros x Hx ->%list_elem_of_singleton. done.
  - simpl. eauto.
  - simpl. rewrite lookup_insert_eq. eexists; split; [done|]. simpl.
    by apply NoDup_filter.
Qed.

End Invariants.

(** ** Counting the accepted joins *)

Section Counting.
Variables (e : string) (C M : Z).
Implicit Types (db : store) (ev : Event) (u : string).

(** Joins of the event [e], served one after the other. *)
Lemma count_successful_sequence (us : list string) :
  ∀ db ev, db !! e = Some ev →
    Z.of_nat (count_successful (run_requests (Join e <$> us) db).2)
    ≤ Z.max 0 (capacity ev - Z.of_nat (length (attendees ev))).
Proof.
  induction us as [|u us IH]; intros db ev He.
  { simpl. unfold count_successful. simpl. lia. }
  rewrite fmap_cons, run_requests_cons.
  change (serve (Join e u)) with (rsvp u e (JStr "join")).
  rewrite run_join, He.
  destruct (join_filter u ev) eqn:Hf.
  - apply join_filter_true in Hf as [_ Hlt].
    specialize (IH (<[e := push_attendees u ev]> db) (push_attendees u ev)).
    rewrite lookup_insert_eq in IH. specialize (IH eq_refl).
    destruct (run_requests _ _) as [db2 rs]. simpl in *.
    unfold count_successful in *. rewrite filter_cons_True by done.
    simpl. rewrite length_app in IH. simpl in IH. lia.
  - specialize (IH db ev He).
    destruct (run_requests _ _) as [db2 rs]. simpl in *.
    unfold count_successful in *. rewrite filter_cons_False; [done|].
    pose proof (classify_not_successful u (Some ev)) as Hn.
    simpl in Hn. by rewrite Hn.
Qed.

Lemma count_joined_insert (pool : list handler) i h h' :
  pool !! i = Some h →
  (count_joined (<[i := h']> pool) + (if joined h then 1 else 0)
   = count_joined pool + (if joined h' then 1 else 0))%nat.
Proof.
  intros Hi.
  rewrite insert_take_drop by (by eapply lookup_lt_Some).
  rewrite <- (take_drop_middle pool i h Hi) at 3.
  unfold count_joined. rewrite !filter_app, !length_app, !filter_cons.
  destruct (joined h), (joined h'); repeat case_decide; try done; simpl; lia.
Qed.

Lemma step_balanced db pool i h :
  balanced e C M db pool → pool !! i = Some h →
  balanced e C M (step h db).1 (<[i := (step h db).2]> pool).
Proof.
  intros [Hall (ev & He & HC & Hlen & Hcap)] Hi.
  pose proof (proj1 (Forall_lookup _ _) Hall i h Hi) as [[u ->]|[[u ->]|[r ->]]].
  - (* the conditional update *)
    simpl. unfold findOneAndUpdate. rewrite He.
    pose proof (count_joined_insert pool i _
      (Respond (RsvpSuccessful (attendees ev ++ [u]))) Hi) as Hin.
    pose proof (count_joined_insert pool i _
      (Await (FindById e) (λ cur, Respond (classify u cur))) Hi) as Hout.
    simpl in Hin, Hout.
    destruct (join_filter u ev) eqn:Hf; simpl.
    + apply join_filter_true in Hf as [_ Hlt].
      split.
      { apply Forall_insert; [done|]. right; right. eauto. }
      eexists. rewrite lookup_insert_eq. split; [done|]. simpl.
      unfold RsvpSuccessful in Hin.
      split; [done|]. rewrite length_app. simpl. split; [lia|]. right. lia.
    + split.
      { apply Forall_insert; [done|]. right; left. eauto. }
      exists ev. split; [done|]. split; [done|].
      replace (count_joined (<[i:=_]> pool)) with (count_joined pool) by lia.
      done.
  - (* the diagnostic read *)
    simpl.
    pose proof (count_joined_insert pool i _
      (Respond (classify u (db !! e))) Hi) as Hout.
    unfold joined in Hout. simpl in Hout.
    rewrite classify_not_successful in Hout.
    split.
    { apply Forall_insert; [done|]. right; right. eauto. }
    exists ev. split; [done|]. split; [done|].
    replace (count_joined (<[i:=_]> pool)) with (count_joined pool) by lia.
    done.
  - (* already answered *)
    simpl. rewrite list_insert_id by done. split; [done|]. eauto.
Qed.

Lemma run_schedule_balanced sched :
  ∀ db pool, balanced e C M db pool →
    balanced e C M (run_schedule sched db pool).1 (run_schedule sched db pool).2.
Proof.
  induction sched as [|i sched IH]; simpl; intros db pool Hb; [done|].
  destruct (pool !! i) as [h|] eqn:Hi; [|by apply IH].
  pose proof (step_balanced db pool i h Hb Hi) as H1.
  destruct (step h db) as [db' h']. by apply IH.
Qed.

Lemma count_joined_fresh (us : list string) :
  count_joined ((λ u, rsvp u e (JStr "join")) <$> us) = 0%nat.
Proof. induction us as [|u us IH]; [done|]. exact IH. Qed.

Lemma balanced_bound db pool :
  balanced e C M db pool → Z.of_nat (count_joined pool) ≤ Z.max 0 (C - M).
Proof. intros [_ (ev & _ & _ & _ & [->|H])]; simpl; lia. Qed.

End Counting.

(** ** The membership service *)

Section Issues.
Implicit Types (e u : string).

(** The join branch issues the conditional update once, and after a
    rejection one read, whatever the store answers. *)
Lemma issues_join e u cs r :
  issues (rsvp u e (JStr "join")) cs r →
  (cs = [FindOneAndUpdate e u] ∧ is_successful r = true)
  ∨ (cs = [FindOneAndUpdate e u; FindById e]
     ∧ ∃ cur, r = classify u cur).
Proof.
  intros H. inversion H as [|c k res cs' r' Hk]; subst.
  destruct res as [ev|].
  - inversion Hk; subst. by left.
  - inversion Hk as [|c2 k2 res2 cs2 r2 Hk2]; subst.
    inversion Hk2; subst. right. eauto.
Qed.

Lemma issues_leave e u cs r :
  issues (rsvp u e (JStr "leave")) cs r → cs = [FindByIdAndUpdate e u].
Proof.
  intros H. inversion H as [|c k res cs' r' Hk]; subst.
  destruct res; inversion Hk; by subst.
Qed.

Lemma rsvp_invalid u e action :
  action ≠ JStr "join" → action ≠ JStr "leave" →
  rsvp u e action = Respond InvalidAction.
Proof.
  intros Hj Hl. unfold rsvp.
  destruct action as [| |b|n|s|]; simpl; try done.
  rewrite !bool_decide_eq_false_2; [done| |]; congruence.
Qed.

Lemma classify_cases u cur :
  classify u cur ∈
    [EventNotFound; AlreadyMember; CapacityExceeded; AdmissionRejected].
Proof.
  unfold classify. destruct cur as [cur|]; [|set_solver].
  destruct (includes _ _); [set_solver|].
  destruct (bool_decide _); set_solver.
Qed.
End Issues.

(** C1: a join is accepted exactly when the document exists, the user is
    not among its attendees and the attendees are fewer than the
    capacity; the accepted join answers with the new list, stores the
    old attendees followed by the user and nothing else, and the
    decision and the write are the one step of the conditional update:
    when that step refuses, it has written nothing and no later answer
    of the request reports success. *)
Theorem join_accepts_iff (db : store) (eventId userId : string) :
  let h := serve (Join eventId userId) in
  let admissible :=
    ∃ ev, db !! eventId = Some ev ∧ (userId ∉ attendees ev)
          ∧ Z.of_nat (length (attendees ev)) < capacity ev in
  (is_successful (run h db).2 = true ↔ admissible)
  ∧ (∀ ev, db !! eventId = Some ev → is_successful (run h db).2 = true →
       (run h db).2 = RsvpSuccessful (attendees ev ++ [userId])
       ∧ (run h db).1
         = <[eventId := set_attendees (attendees ev ++ [userId]) ev]> db
       ∧ (∀ x, x ∈ attendees ev ++ [userId] ↔ x ∈ attendees ev ∨ x = userId))
  ∧ (admissible → step h db = ((run h db).1, Respond (run h db).2))
  ∧ (¬ admissible →
       (step h db).1 = db
       ∧ ∀ cs r, issues (step h db).2 cs r → is_successful r = false).
Proof.
  intros h admissible. subst h.
  change (serve (Join eventId userId)) with (rsvp userId eventId (JStr "join")).
  rewrite run_join.
  assert (Hadm : admissible ↔
            ∃ ev, db !! eventId = Some ev ∧ join_filter userId ev = true).
  { unfold admissible. split; intros (ev & He & H); exists ev; (split; [done|]).
    - by apply join_filter_true.
    - by apply join_filter_true in H. }
  simpl step. unfold findOneAndUpdate.
  destruct (db !! eventId) as [ev|] eqn:He.
  - destruct (join_filter userId ev) eqn:Hf; simpl.
    + split; [split; [intros _; apply Hadm; eauto | done]|].
      split.
      { intros ev' [= <-] _. split; [done|]. split; [done|].
        intros x. rewrite elem_of_app, list_elem_of_singleton. done. }
      split; [done|].
      intros Hn. exfalso. apply Hn, Hadm. eauto.
    + pose proof (classify_not_successful userId (Some ev)) as Hc.
      simpl in Hc. rewrite Hc.
      assert (Hnot : ¬ admissible).
      { intros (ev' & [= <-] & Hf')%Hadm. congruence. }
      split; [split; [done | intros H; by destruct Hnot]|].
      split; [done|]. split; [intros H; by destruct Hnot|].
      intros _. split; [done|].
      intros cs r H. inversion H as [|c k res cs' r' Hk]; subst.
      inversion Hk; subst. apply classify_not_successful.
  - simpl.
    assert (Hnot : ¬ admissible).
    { intros (ev' & [=] & _)%Hadm. }
    split; [split; [done | intros H; by destruct Hnot]|].
    split; [done|]. split; [intros H; by destruct Hnot|].
    intros _. split; [done|].
    intros cs r H. inversion H as [|c k res cs' r' Hk]; subst.
    inversion Hk; subst. apply classify_not_successful.
Qed.

Lemma join_accepts_iff_witness :
  let db : store := {[ "e1" := sample 2 ["alice"] ]} in
  is_successful (run (serve (Join "e1" "bob")) db).2 = true
  ∧ (run (serve (Join "e1" "bob")) db).1
    = <[ "e1" := set_attendees ["alice"; "bob"] (sample 2 ["alice"]) ]> db.
Proof.
  intros db.
  destruct (join_accepts_iff db "e1" "bob") as (Hiff & Hacc & _).
  assert (Hs : is_successful (run (serve (Join "e1" "bob")) db).2 = true).
  { apply Hiff. exists (sample 2 ["alice"]).
    split; [reflexivity|]. split; [|simpl; lia].
    intros H. apply list_elem_of_singleton in H. discriminate H. }
  split; [exact Hs|].
  exact (proj1 (proj2 (Hacc (sample 2 ["alice"]) eq_refl Hs))).
Defined.

(** C2, as the handler has it: from a document within its capacity,
    every sequence of requests, and every interleaving of the store
    calls of requests in flight together, keeps the attendees within the
    capacity, which never changes; of any joins of the event, served in
    sequence or interleaved, at most [max 0 (C - M)] are accepted; and a
    join of a saturated event writes nothing and fails, with "Event is
    full" when the user is not an attendee and with "Already RSVPed"
    when the user is one. *)
Theorem capacity_respected (db : store) (eventId : string) (ev : Event) :
  db !! eventId = Some ev →
  Z.of_nat (length (attendees ev)) ≤ capacity ev →
  (∀ qs, within_capacity eventId (capacity ev) (run_requests qs db).1)
  ∧ (∀ qs sched,
       within_capacity eventId (capacity ev)
         (run_schedule sched db (serve <$> qs)).1)
  ∧ (∀ us,
       Z.of_nat (count_successful (run_requests (Join eventId <$> us) db).2)
       ≤ Z.max 0 (capacity ev - Z.of_nat (length (attendees ev))))
  ∧ (∀ us sched,
       Z.of_nat (count_joined
                   (run_schedule sched db
                      ((λ u, serve (Join eventId u)) <$> us)).2)
       ≤ Z.max 0 (capacity ev - Z.of_nat (length (attendees ev))))
  ∧ (∀ u, capacity ev ≤ Z.of_nat (length (attendees ev)) →
       run (serve (Join eventId u)) db
       = (db, if decide (u ∈ attendees ev)
              then AlreadyMember else CapacityExceeded)).
Proof.
  intros He Hle.
  assert (H0 : within_capacity eventId (capacity ev) db) by (exists ev; eauto).
  split.
  { intros qs. apply run_requests_keeps; [|done].
    intros c db'. apply exec_call_within_capacity. }
  split.
  { intros qs sched. apply run_schedule_keeps; [|done].
    intros c db'. apply exec_call_within_capacity. }
  split.
  { intros us. by apply count_successful_sequence. }
  split.
  { intros us sched.
    eapply (balanced_bound eventId (capacity ev)
              (Z.of_nat (length (attendees ev)))).
    apply run_schedule_balanced. split.
    - apply Forall_fmap, Forall_forall. intros u _. left. by exists u.
    - exists ev. change (λ u, serve (Join eventId u))
        with (λ u, rsvp u eventId (JStr "join")).
      rewrite count_joined_fresh. repeat split; try done; [lia | by left]. }
  intros u Hsat.
  change (serve (Join eventId u)) with (rsvp u eventId (JStr "join")).
  rewrite run_join, He.
  assert (Hf : join_filter u ev = false) by (apply join_filter_false; by right).
  rewrite Hf, (classify_rejected _ _ Hf). unfold includes.
  by destruct (decide (u ∈ attendees ev));
    [rewrite bool_decide_eq_true_2 | rewrite bool_decide_eq_false_2].
Qed.

Lemma capacity_respected_witness :
  let db : store := {[ "e1" := sample 1 ["alice"] ]} in
  within_capacity "e1" 1
    (run_requests [Join "e1" "bob"; Leave "e1" "alice"; Join "e1" "carol"] db).1
  ∧ run (serve (Join "e1" "bob")) db = (db, CapacityExceeded).
Proof.
  intros db.
  assert (He : db !! "e1" = Some (sample 1 ["alice"])) by reflexivity.
  assert (Hle : Z.of_nat (length (attendees (sample 1 ["alice"])))
                ≤ capacity (sample 1 ["alice"])) by (simpl; lia).
  destruct (capacity_respected db "e1" (sample 1 ["alice"]) He Hle)
    as (Hseq & _ & _ & _ & Hsat).
  split; [apply Hseq|].
  rewrite (Hsat "bob") by (simpl; lia). reflexivity.
Defined.

(** The claim C2 has every join of a saturated event fail with
    "Event is full"; an attendee who joins again is told
    "Already RSVPed" instead. *)
Lemma saturated_join_by_member :
  let db : store := {[ "e1" := sample 1 ["alice"] ]} in
  db !! "e1" = Some (sample 1 ["alice"])
  ∧ Z.of_nat (length (attendees (sample 1 ["alice"])))
    = capacity (sample 1 ["alice"])
  ∧ run (serve (Join "e1" "alice")) db = (db, AlreadyMember)
  ∧ (run (serve (Join "e1" "alice")) db).2 ≠ CapacityExceeded.
Proof. repeat split. discriminate. Qed.

(** C3: from a document whose attendees are free of duplicates, every
    sequence of requests, and every interleaving of the store calls of
    requests in flight together, leaves the attendees free of
    duplicates; and the join of a user who is an attendee writes nothing
    and fails with "Already RSVPed". *)
Theorem attendees_duplicate_free (db : store) (eventId : string) (ev : Event) :
  db !! eventId = Some ev →
  NoDup (attendees ev) →
  (∀ qs, duplicate_free eventId (run_requests qs db).1)
  ∧ (∀ qs sched,
       duplicate_free eventId (run_schedule sched db (serve <$> qs)).1)
  ∧ (∀ u, u ∈ attendees ev →
       run (serve (Join eventId u)) db = (db, AlreadyMember)).
Proof.
  intros He Hnd.
  assert (H0 : duplicate_free eventId db) by (exists ev; eauto).
  split.
  { intros qs. apply run_requests_keeps; [|done].
    intros c db'. apply exec_call_duplicate_free. }
  split.
  { intros qs sched. apply run_schedule_keeps; [|done].
    intros c db'. apply exec_call_duplicate_free. }
  intros u Hin.
  change (serve (Join eventId u)) with (rsvp u eventId (JStr "join")).
  rewrite run_join, He.
  assert (Hf : join_filter u ev = false) by (apply join_filter_false; by left).
  rewrite Hf, (classify_rejected _ _ Hf). unfold includes.
  by rewrite bool_decide_eq_true_2.
Qed.

Lemma attendees_duplicate_free_witness :
  let db : store := {[ "e1" := sample 5 ["alice"] ]} in
  duplicate_free "e1"
    (run_requests [Join "e1" "alice"; Join "e1" "bob"; Join "e1" "bob"] db).1
  ∧ run (serve (Join "e1" "alice")) db = (db, AlreadyMember).
Proof.
  intros db.
  assert (He : db !! "e1" = Some (sample 5 ["alice"])) by reflexivity.
  assert (Hnd : NoDup (attendees (sample 5 ["alice"])))
    by (simpl; apply NoDup_singleton).
  destruct (attendees_duplicate_free db "e1" (sample 5 ["alice"]) He Hnd)
    as (Hseq & _ & Hmem).
  split; [apply Hseq|].
  apply Hmem. simpl. apply list_elem_of_singleton. reflexivity.
Defined.

(** C4: a join that is not accepted leaves the store as it was.  Served
    without interference, the store comes back unchanged with one of the
    four failures.  With other requests in between ([db2] is the store
    at the time of the read), the refused conditional update has written
    nothing and the read writes nothing and answers with one of the four
    failures.  Whatever the store answers, the request issues the
    conditional update exactly once, followed by at most one read. *)
Theorem join_failure_no_effect (db : store) (eventId userId : string) :
  let h := serve (Join eventId userId) in
  let failures :=
    [EventNotFound; AlreadyMember; CapacityExceeded; AdmissionRejected] in
  (is_successful (run h db).2 = false →
     (run h db).1 = db ∧ (run h db).2 ∈ failures)
  ∧ (∀ db2, answered (step h db).2 = None →
       (step h db).1 = db
       ∧ ∃ r, step (step h db).2 db2 = (db2, Respond r) ∧ r ∈ failures)
  ∧ (∀ cs r, issues h cs r →
       cs = [FindOneAndUpdate eventId userId]
       ∨ (cs = [FindOneAndUpdate eventId userId; FindById eventId]
          ∧ r ∈ failures))
  ∧ (∀ db2, (exec_call (FindById eventId) db2).1 = db2).
Proof.
  intros h failures. subst h.
  change (serve (Join eventId userId)) with (rsvp userId eventId (JStr "join")).
  split.
  { rewrite run_join. destruct (db !! eventId) as [ev|]; simpl.
    - destruct (join_filter userId ev); simpl; [done|].
      intros _. split; [done|]. apply (classify_cases userId (Some ev)).
    - intros _. split; [done|]. apply (classify_cases userId None). }
  split.
  { intros db2. simpl. unfold findOneAndUpdate.
    destruct (db !! eventId) as [ev|]; simpl.
    - destruct (join_filter userId ev); simpl; [done|].
      intros _. split; [done|]. eexists. split; [done|]. apply classify_cases.
    - intros _. split; [done|]. eexists. split; [done|]. apply classify_cases. }
  split; [|done].
  intros cs r [[-> _]|[-> [cur ->]]]%issues_join; [by left|].
  right. split; [done|]. apply classify_cases.
Qed.

Lemma join_failure_no_effect_witness :
  let db : store := {[ "e1" := sample 1 ["alice"] ]} in
  (run (serve (Join "e1" "bob")) db).1 = db.
Proof.
  intros db.
  destruct (join_failure_no_effect db "e1" "bob") as (Hrun & _).
  apply Hrun. reflexivity.
Defined.

(** C5: when the conditional update of a join is refused, the request
    reads the document once and answers from what it reads ([db2] is the
    store at the time of the read): "Event not found" when there is no
    document; otherwise "Already RSVPed" when the user is an attendee;
    otherwise "Event is full" when the attendees are as many as the
    capacity or more; otherwise "RSVP Failed". *)
Theorem rejection_classified (db1 db2 : store) (eventId userId : string) :
  (findOneAndUpdate eventId userId db1).2 = None →
  let h := serve (Join eventId userId) in
  let verdict (db : store) :=
    match db !! eventId with
    | None => EventNotFound
    | Some cur =>
        if decide (userId ∈ attendees cur) then AlreadyMember
        else if decide (capacity cur ≤ Z.of_nat (length (attendees cur)))
        then CapacityExceeded
        else AdmissionRejected
    end in
  (∃ k, step h db1 = (db1, Await (FindById eventId) k)
        ∧ step (Await (FindById eventId) k) db2 = (db2, Respond (verdict db2)))
  ∧ run h db1 = (db1, verdict db1)
  ∧ calls h db1 = [FindOneAndUpdate eventId userId; FindById eventId].
Proof.
  intros Hrej h verdict. subst h.
  assert (Hv : ∀ db, classify userId (db !! eventId) = verdict db).
  { intros db. unfold verdict, classify, includes.
    destruct (db !! eventId) as [cur|]; [|done].
    destruct (decide (userId ∈ attendees cur)).
    - by rewrite bool_decide_eq_true_2.
    - rewrite bool_decide_eq_false_2 by done.
      destruct (decide (capacity cur ≤ _)).
      + by rewrite bool_decide_eq_true_2 by lia.
      + by rewrite bool_decide_eq_false_2 by lia. }
  pose proof (findOneAndUpdate_null _ _ _ Hrej) as Hsame.
  simpl. destruct (findOneAndUpdate eventId userId db1) as [db1' res].
  simpl in *. subst. unfold findById. simpl. rewrite !Hv.
  split; [|done]. eexists. split; [done|]. simpl. by rewrite Hv.
Qed.

Lemma rejection_classified_witness :
  let db1 : store := {[ "e1" := sample 1 ["alice"] ]} in
  let db2 : store := {[ "e1" := sample 1 [] ]} in
  run (serve (Join "e1" "bob")) db1 = (db1, CapacityExceeded)
  ∧ ∃ k, step (serve (Join "e1" "bob")) db1 = (db1, Await (FindById "e1") k)
         ∧ step (Await (FindById "e1") k) db2 = (db2, Respond AdmissionRejected).
Proof.
  intros db1 db2.
  assert (Hrej : (findOneAndUpdate "e1" "bob" db1).2 = None) by reflexivity.
  destruct (rejection_classified db1 db2 "e1" "bob" Hrej) as ((k & H1 & H2) & Hrun & _).
  split; [exact Hrun|].
  exists k. split; [exact H1 | exact H2].
Defined.

Section Leaving.
Implicit Types (l : list string) (u : string).

Lemma pull_absent u l : u ∉ l → filter (λ x, x ≠ u) l = l.
Proof.
  induction l as [|y l IH]; [done|].
  intros Hnin. apply not_elem_of_cons in Hnin as [Hne Hnin].
  rewrite filter_cons_True by congruence. by rewrite IH.
Qed.

Lemma pull_gone u l : u ∉ filter (λ x, x ≠ u) l.
Proof. intros [Hne _]%list_elem_of_filter. by apply Hne. Qed.

Lemma set_attendees_same (ev : Event) : set_attendees (attendees ev) ev = ev.
Proof. by destruct ev. Qed.
End Leaving.

(** C6: on an existing document a leave answers "RSVP Cancelled" with
    the attendees that are not the user, and stores them; nothing
    changes when the user was not an attendee; a second leave in a row
    answers the same way, without error, and leaves the store as the
    first one did. *)
Theorem leave_idempotent (db : store) (eventId userId : string) (ev : Event) :
  db !! eventId = Some ev →
  let rest := filter (λ x, x ≠ userId) (attendees ev) in
  let db1 : store := <[eventId := set_attendees rest ev]> db in
  run (serve (Leave eventId userId)) db = (db1, RsvpCancelled rest)
  ∧ (∀ x, x ∈ rest ↔ x ∈ attendees ev ∧ x ≠ userId)
  ∧ ((userId ∉ attendees ev) → rest = attendees ev ∧ db1 = db)
  ∧ run (serve (Leave eventId userId)) db1 = (db1, RsvpCancelled rest)
  ∧ run_requests [Leave eventId userId; Leave eventId userId] db
    = (db1, [RsvpCancelled rest; RsvpCancelled rest]).
Proof.
  intros He rest db1.
  change (serve (Leave eventId userId)) with (rsvp userId eventId (JStr "leave")).
  assert (H1 : run (rsvp userId eventId (JStr "leave")) db
               = (db1, RsvpCancelled rest)).
  { by rewrite run_leave, He. }
  assert (H2 : run (rsvp userId eventId (JStr "leave")) db1
               = (db1, RsvpCancelled rest)).
  { rewrite run_leave. unfold db1 at 1. rewrite lookup_insert_eq.
    unfold pull_attendees. simpl.
    rewrite (pull_absent userId rest) by apply pull_gone.
    unfold db1. by rewrite insert_insert_eq. }
  split; [done|]. split.
  { intros x. unfold rest. rewrite list_elem_of_filter. tauto. }
  split.
  { intros Hnin. unfold db1, rest. rewrite pull_absent by done.
    split; [done|]. rewrite set_attendees_same. by apply insert_id. }
  split; [done|].
  rewrite run_requests_cons.
  change (serve (Leave eventId userId)) with (rsvp userId eventId (JStr "leave")).
  rewrite H1. cbn [fst snd]. rewrite run_requests_cons.
  change (serve (Leave eventId userId)) with (rsvp userId eventId (JStr "leave")).
  by rewrite H2.
Qed.

Lemma leave_idempotent_witness :
  let db : store := {[ "e1" := sample 3 ["alice"; "bob"; "carol"] ]} in
  run_requests [Leave "e1" "bob"; Leave "e1" "bob"] db
  = ({[ "e1" := sample 3 ["alice"; "carol"] ]},
     [RsvpCancelled ["alice"; "carol"]; RsvpCancelled ["alice"; "carol"]]).
Proof.
  intros db.
  assert (He : db !! "e1" = Some (sample 3 ["alice"; "bob"; "carol"]))
    by reflexivity.
  destruct (leave_idempotent db "e1" "bob" _ He) as (_ & _ & _ & _ & Htwice).
  rewrite Htwice. vm_compute. reflexivity.
Defined.

(** C7, the handler at the failing input: a leave of an event that has
    no document writes nothing, and the read of [event.attendees] on
    [null] makes the handler answer with status 500. *)
Theorem leave_missing_event_fails :
  run (serve (Leave "ghost-event" "alice")) ∅
  = (∅, mkResponse 500 (Error null_attendees_message)).
Proof. reflexivity. Qed.

(** The same for every store without the document. *)
Lemma leave_missing_event (db : store) (eventId userId : string) :
  db !! eventId = None →
  run (serve (Leave eventId userId)) db
  = (db, ServerError null_attendees_message).
Proof.
  intros He.
  change (serve (Leave eventId userId)) with (rsvp userId eventId (JStr "leave")).
  by rewrite run_leave, He.
Qed.

(** C8: a request whose action is neither ["join"] nor ["leave"], a
    missing action included, is answered with status 400 and
    "Invalid action", issues no store call and leaves the store as it
    was. *)
Theorem invalid_action_rejected
    (db : store) (userId eventId : string) (action : jsval) :
  action ≠ JStr "join" → action ≠ JStr "leave" →
  run (rsvp userId eventId action) db
  = (db, mkResponse 400 (Message "Invalid action"))
  ∧ calls (rsvp userId eventId action) db = []
  ∧ (∀ cs r, issues (rsvp userId eventId action) cs r →
       cs = [] ∧ r = mkResponse 400 (Message "Invalid action")).
Proof.
  intros Hj Hl. rewrite (rsvp_invalid _ _ _ Hj Hl). simpl.
  split; [done|]. split; [done|].
  intros cs r H. by inversion H.
Qed.

Lemma invalid_action_rejected_witness :
  let db : store := {[ "e1" := sample 1 ["alice"] ]} in
  run (rsvp "bob" "e1" JUndefined) db
  = (db, mkResponse 400 (Message "Invalid action")).
Proof.
  intros db.
  assert (Hj : JUndefined ≠ JStr "join") by discriminate.
  assert (Hl : JUndefined ≠ JStr "leave") by discriminate.
  exact (proj1 (invalid_action_rejected db "bob" "e1" JUndefined Hj Hl)).
Defined.

(** C9: after a leave the user occurs zero times among the stored
    attendees of the event, however many times the user occurred
    before; a leave creates no document. *)
Theorem leave_removes_every_occurrence (db : store) (eventId userId : string) :
  match (run (serve (Leave eventId userId)) db).1 !! eventId with
  | Some ev' =>
      (userId ∉ attendees ev')
      ∧ length (filter (λ x, x = userId) (attendees ev')) = 0%nat
      ∧ is_Some (db !! eventId)
  | None => db !! eventId = None
  end.
Proof.
  change (serve (Leave eventId userId)) with (rsvp userId eventId (JStr "leave")).
  rewrite run_leave.
  destruct (db !! eventId) as [ev|] eqn:He; simpl; [|by rewrite He].
  rewrite lookup_insert_eq. simpl.
  split; [apply pull_gone|]. split; [|done].
  rewrite list_filter_filter.
  induction (attendees ev) as [|y l IH]; [done|].
  rewrite filter_cons_False; [done|]. intros [-> ?]. done.
Qed.

Example leave_removes_duplicates :
  run (serve (Leave "e1" "bob"))
    {[ "e1" := sample 5 ["bob"; "alice"; "bob"; "bob"] ]}
  = ({[ "e1" := sample 5 ["alice"] ]}, RsvpCancelled ["alice"]).
Proof. vm_compute. reflexivity. Qed.

(** C10: a request on the event [e], a join or a leave or any other,
    leaves the document of every other event [e'] as it was: served
    without interference the store has the same document at [e'], every
    store call the request issues addresses [e], and a call that
    addresses [e] does not touch [e'] in any store. *)
Theorem rsvp_frame (db : store) (e e' u : string) (action : jsval) :
  e ≠ e' →
  (run (rsvp u e action) db).1 !! e' = db !! e'
  ∧ (run (serve (Join e u)) db).1 !! e' = db !! e'
  ∧ (run (serve (Leave e u)) db).1 !! e' = db !! e'
  ∧ (∀ cs r, issues (rsvp u e action) cs r →
       Forall (λ c, call_event c = e) cs)
  ∧ (∀ c db2, call_event c = e → (exec_call c db2).1 !! e' = db2 !! e').
Proof.
  intros Hne.
  assert (Hj : (run (rsvp u e (JStr "join")) db).1 !! e' = db !! e').
  { rewrite run_join. destruct (db !! e) as [ev|]; [|done].
    destruct (join_filter u ev); simpl; [|done]. by rewrite lookup_insert_ne. }
  assert (Hl : (run (rsvp u e (JStr "leave")) db).1 !! e' = db !! e').
  { rewrite run_leave. destruct (db !! e) as [ev|]; [|done].
    simpl. by rewrite lookup_insert_ne. }
  destruct (decide (action = JStr "join")) as [->|Hnj].
  { repeat split; try done.
    - intros cs r [[-> _]|[-> _]]%issues_join; repeat constructor.
    - intros c db2 <-. by apply exec_call_frame. }
  destruct (decide (action = JStr "leave")) as [->|Hnl].
  { repeat split; try done.
    - intros cs r ->%issues_leave. repeat constructor.
    - intros c db2 <-. by apply exec_call_frame. }
  rewrite (rsvp_invalid _ _ _ Hnj Hnl). repeat split; try done.
  - intros cs r H. inversion H; subst. constructor.
  - intros c db2 <-. by apply exec_call_frame.
Qed.

Lemma rsvp_frame_witness :
  let db : store := {[ "e1" := sample 2 ["alice"]; "e2" := sample 1 ["carol"] ]} in
  (run (serve (Join "e1" "bob")) db).1 !! "e2" = Some (sample 1 ["carol"])
  ∧ (run (serve (Leave "e1" "alice")) db).1 !! "e2" = Some (sample 1 ["carol"]).
Proof.
  intros db.
  assert (Hne : "e1" ≠ "e2") by discriminate.
  split.
  - rewrite (proj1 (proj2 (rsvp_frame db "e1" "e2" "bob" JNull Hne))).
    reflexivity.
  - rewrite (proj1 (proj2 (proj2 (rsvp_frame db "e1" "e2" "alice" JNull Hne)))).
    reflexivity.
Defined.

(** ** Editing, deleting and creating events *)

Section OtherRoutes.
Import Routes.
Implicit Types (db : store) (ev : Event) (e u : string) (w : driver).

Lemma run_edit_event w u e body db :
  run_route w (edit_event u e body) db =
  match db !! e with
  | None => (db, mkReply 404 (PMessage "Event not found"))
  | Some ev =>
      if decide (organizer ev = u)
      then (<[e := apply_patch body ev]> db,
            mkReply 200 (PDoc (Some (e, apply_patch body ev))))
      else (db, mkReply 401 (PMessage "User not authorized"))
  end.
Proof.
  simpl. destruct (db !! e) as [ev|] eqn:He; [|done].
  destruct (decide (organizer ev = u)) as [Ho|Ho].
  - rewrite bool_decide_eq_false_2 by (intros H; by apply H).
    simpl. unfold findByIdAndUpdate_body. by rewrite He.
  - by rewrite bool_decide_eq_true_2.
Qed.

Lemma run_delete_event w u e db :
  run_route w (delete_event u e) db =
  match db !! e with
  | None => (db, mkReply 404 (PMessage "Event not found"))
  | Some ev =>
      if decide (organizer ev = u)
      then (delete e db, mkReply 200 (PMessage "Event removed"))
      else (db, mkReply 401 (PMessage "User not authorized"))
  end.
Proof.
  simpl. destruct (db !! e) as [ev|] eqn:He; [|done].
  destruct (decide (organizer ev = u)) as [Ho|Ho].
  - by rewrite bool_decide_eq_false_2 by (intros H; by apply H).
  - by rewrite bool_decide_eq_true_2.
Qed.

Lemma apply_patch_nothing ev :
  apply_patch (mkPatch None None None None None None None None) ev = ev.
Proof. by destruct ev. Qed.

End OtherRoutes.

(** X1: an edit by a user who is not the organizer of the stored event
    is answered 401 "User not authorized"; the route has only read the
    document and the store is as it was. *)
Theorem edit_refused_for_non_organizer
    (w : Routes.driver) (db : store) (userId eventId : string)
    (body : Routes.patch) (ev : Event) :
  db !! eventId = Some ev →
  organizer ev ≠ userId →
  Routes.run_route w (Routes.edit_event userId eventId body) db
  = (db, Routes.mkReply 401 (Routes.PMessage "User not authorized"))
  ∧ Routes.effects w (Routes.edit_event userId eventId body) db
    = [Routes.Read eventId].
Proof.
  intros He Ho. split.
  - rewrite run_edit_event, He. by rewrite decide_False.
  - simpl. rewrite He. by rewrite bool_decide_eq_true_2.
Qed.

Lemma edit_refused_for_non_organizer_witness :
  let db : store := {[ "e1" := sample 2 ["alice"] ]} in
  Routes.run_route no_driver
    (Routes.edit_event "mallory" "e1" (capacity_only 0)) db
  = (db, Routes.mkReply 401 (Routes.PMessage "User not authorized")).
Proof.
  intros db.
  assert (He : db !! "e1" = Some (sample 2 ["alice"])) by reflexivity.
  assert (Ho : organizer (sample 2 ["alice"]) ≠ "mallory") by discriminate.
  exact (proj1 (edit_refused_for_non_organizer no_driver db "mallory" "e1"
                  (capacity_only 0) _ He Ho)).
Defined.

(** X2: a delete by a user who is not the organizer of the stored event
    is answered 401 "User not authorized"; the route has only read the
    document and nothing is deleted. *)
Theorem delete_refused_for_non_organizer
    (w : Routes.driver) (db : store) (userId eventId : string) (ev : Event) :
  db !! eventId = Some ev →
  organizer ev ≠ userId →
  Routes.run_route w (Routes.delete_event userId eventId) db
  = (db, Routes.mkReply 401 (Routes.PMessage "User not authorized"))
  ∧ Routes.effects w (Routes.delete_event userId eventId) db
    = [Routes.Read eventId].
Proof.
  intros He Ho. split.
  - rewrite run_delete_event, He. by rewrite decide_False.
  - simpl. rewrite He. by rewrite bool_decide_eq_true_2.
Qed.

Lemma delete_refused_for_non_organizer_witness :
  let db : store := {[ "e1" := sample 2 ["alice"] ]} in
  Routes.run_route no_driver (Routes.delete_event "mallory" "e1") db
  = (db, Routes.mkReply 401 (Routes.PMessage "User not authorized")).
Proof.
  intros db.
  assert (He : db !! "e1" = Some (sample 2 ["alice"])) by reflexivity.
  assert (Ho : organizer (sample 2 ["alice"]) ≠ "mallory") by discriminate.
  exact (proj1 (delete_refused_for_non_organizer no_driver db "mallory" "e1"
                  _ He Ho)).
Defined.

(** X3: an edit and a delete of an event that has no document are both
    answered 404 "Event not found", whoever asks, and the store is as it
    was: neither creates the document. *)
Theorem edit_delete_missing_event
    (w : Routes.driver) (db : store) (userId eventId : string)
    (body : Routes.patch) :
  db !! eventId = None →
  Routes.run_route w (Routes.edit_event userId eventId body) db
  = (db, Routes.mkReply 404 (Routes.PMessage "Event not found"))
  ∧ Routes.run_route w (Routes.delete_event userId eventId) db
    = (db, Routes.mkReply 404 (Routes.PMessage "Event not found")).
Proof.
  intros He. by rewrite run_edit_event, run_delete_event, He.
Qed.

Lemma edit_delete_missing_event_witness :
  Routes.run_route no_driver
    (Routes.edit_event "org" "ghost-event" (capacity_only 3)) ∅
  = (∅, Routes.mkReply 404 (Routes.PMessage "Event not found")).
Proof.
  assert (He : (∅ : store) !! "ghost-event" = None) by reflexivity.
  exact (proj1 (edit_delete_missing_event no_driver ∅ "org" "ghost-event"
                  (capacity_only 3) He)).
Defined.

(** X4: an edit by the organizer stores the document with the fields of
    the body set and the others kept, answers 200 with that document,
    and leaves the documents of the other events as they were; with a
    body that sets no field the store is as it was. *)
Theorem edit_by_organizer
    (w : Routes.driver) (db : store) (eventId : string)
    (body : Routes.patch) (ev : Event) :
  db !! eventId = Some ev →
  let r := Routes.run_route w (Routes.edit_event (organizer ev) eventId body) db in
  r.2 = Routes.mkReply 200
          (Routes.PDoc (Some (eventId, Routes.apply_patch body ev)))
  ∧ r.1 !! eventId = Some (Routes.apply_patch body ev)
  ∧ (∀ e', eventId ≠ e' → r.1 !! e' = db !! e')
  ∧ (Routes.p_capacity body = None →
       capacity (Routes.apply_patch body ev) = capacity ev)
  ∧ (Routes.p_attendees body = None →
       attendees (Routes.apply_patch body ev) = attendees ev)
  ∧ (body = Routes.mkPatch None None None None None None None None →
       r.1 = db).
Proof.
  intros He r. subst r. rewrite run_edit_event, He.
  rewrite decide_True by done. simpl.
  split; [done|]. split; [by rewrite lookup_insert_eq|].
  split; [intros e' Hne; by rewrite lookup_insert_ne|].
  split; [by intros ->|]. split; [by intros ->|].
  intros ->. rewrite apply_patch_nothing. by apply insert_id.
Qed.

Lemma edit_by_organizer_witness :
  let db : store := {[ "e1" := sample 2 ["alice"] ]} in
  (Routes.run_route no_driver
     (Routes.edit_event "org" "e1" (capacity_only 7)) db).1 !! "e1"
  = Some (sample 7 ["alice"]).
Proof.
  intros db.
  assert (He : db !! "e1" = Some (sample 2 ["alice"])) by reflexivity.
  exact (proj1 (proj2 (edit_by_organizer no_driver db "e1" (capacity_only 7)
                         _ He))).
Defined.



(** X6: the edit route checks the organizer on one read and writes in a
    later call; when the document is deleted in between, the update
    finds nothing, writes nothing, and the route still answers 200, with
    [null] for the event. *)
Theorem edit_after_delete_race
    (w : Routes.driver) (db1 db2 : store) (eventId : string)
    (body : Routes.patch) (ev : Event) :
  db1 !! eventId = Some ev →
  db2 !! eventId = None →
  let s1 := Routes.step_route w
              (Routes.edit_event (organizer ev) eventId body) db1 in
  s1.1 = db1
  ∧ Routes.step_route w s1.2 db2
    = (db2, Routes.Reply (Routes.mkReply 200 (Routes.PDoc None))).
Proof.
  intros H1 H2 s1. subst s1. simpl. rewrite H1.
  rewrite bool_decide_eq_false_2 by (intros H; by apply H).
  simpl. unfold Routes.findByIdAndUpdate_body. by rewrite H2.
Qed.

Lemma edit_after_delete_race_witness :
  let db1 : store := {[ "e1" := sample 2 ["alice"] ]} in
  Routes.step_route no_driver
    (Routes.step_route no_driver
       (Routes.edit_event "org" "e1" (capacity_only 5)) db1).2 ∅
  = (∅, Routes.Reply (Routes.mkReply 200 (Routes.PDoc None))).
Proof.
  intros db1.
  assert (H1 : db1 !! "e1" = Some (sample 2 ["alice"])) by reflexivity.
  assert (H2 : (∅ : store) !! "e1" = None) by reflexivity.
  exact (proj2 (edit_after_delete_race no_driver db1 ∅ "e1" (capacity_only 5)
                  _ H1 H2)).
Defined.

(** X7: a delete by the organizer answers 200 "Event removed" after one
    read and one delete; afterwards the event has no document and the
    documents of the other events are as they were. *)
Theorem delete_by_organizer
    (w : Routes.driver) (db : store) (eventId : string) (ev : Event) :
  db !! eventId = Some ev →
  let r := Routes.run_route w (Routes.delete_event (organizer ev) eventId) db in
  r.2 = Routes.mkReply 200 (Routes.PMessage "Event removed")
  ∧ r.1 !! eventId = None
  ∧ (∀ e', eventId ≠ e' → r.1 !! e' = db !! e')
  ∧ Routes.effects w (Routes.delete_event (organizer ev) eventId) db
    = [Routes.Read eventId; Routes.Delete eventId].
Proof.
  intros He r. subst r. rewrite run_delete_event, He.
  rewrite decide_True by done. cbn [fst snd].
  split; [done|]. split; [apply lookup_delete_eq|].
  split; [intros e' Hne; by apply lookup_delete_ne|].
  simpl. rewrite He.
  by rewrite bool_decide_eq_false_2 by (intros H; by apply H).
Qed.

Lemma delete_by_organizer_witness :
  let db : store := {[ "e1" := sample 2 ["alice"]; "e2" := sample 1 [] ]} in
  (Routes.run_route no_driver (Routes.delete_event "org" "e1") db).1 !! "e1"
  = None.
Proof.
  intros db.
  assert (He : db !! "e1" = Some (sample 2 ["alice"])) by reflexivity.
  exact (proj1 (proj2 (delete_by_organizer no_driver db "e1" _ He))).
Defined.

(** X8: once the organizer has deleted an event, a join of it is
    answered "Event not found", a leave is answered with status 500, a
    second delete and an edit are answered 404, and none of them brings
    the document back. *)
Theorem requests_after_delete
    (w : Routes.driver) (db : store) (eventId u : string)
    (body : Routes.patch) (ev : Event) :
  db !! eventId = Some ev →
  let db' := (Routes.run_route w
                (Routes.delete_event (organizer ev) eventId) db).1 in
  run (serve (Join eventId u)) db' = (db', EventNotFound)
  ∧ run (serve (Leave eventId u)) db'
    = (db', ServerError null_attendees_message)
  ∧ Routes.run_route w (Routes.delete_event u eventId) db'
    = (db', Routes.mkReply 404 (Routes.PMessage "Event not found"))
  ∧ Routes.run_route w (Routes.edit_event u eventId body) db'
    = (db', Routes.mkReply 404 (Routes.PMessage "Event not found"))
  ∧ db' !! eventId = None.
Proof.
  intros He db'.
  assert (Hgone : db' !! eventId = None).
  { unfold db'. rewrite run_delete_event, He.
    rewrite decide_True by done. apply lookup_delete_eq. }
  change (serve (Join eventId u)) with (rsvp u eventId (JStr "join")).
  change (serve (Leave eventId u)) with (rsvp u eventId (JStr "leave")).
  by rewrite run_join, run_leave, run_delete_event, run_edit_event, Hgone.
Qed.

Lemma requests_after_delete_witness :
  let db : store := {[ "e1" := sample 2 ["alice"] ]} in
  run (serve (Join "e1" "bob"))
    (Routes.run_route no_driver (Routes.delete_event "org" "e1") db).1
  = (∅, EventNotFound).
Proof.
  intros db.
  assert (He : db !! "e1" = Some (sample 2 ["alice"])) by reflexivity.
  etrans.
  - exact (proj1 (requests_after_delete no_driver db "e1" "bob"
                    (capacity_only 1) _ He)).
  - vm_compute. reflexivity.
Defined.

(** X9: the create route answers 201 exactly when the request carries an
    image, the image host answers, the schema accepts the draft and the
    new [_id] is free; the store then has the new document under that
    [_id], built from the draft with the hosted image and the caller as
    organizer.  In every other case the store is as it was.  In all
    cases the documents that were there are untouched, and without an
    image nothing is uploaded. *)
Theorem create_event_outcome
    (w : Routes.driver) (db : store) (userId : string)
    (body : Routes.form) (file : option string) :
  let r := Routes.run_route w (Routes.create_event userId body file) db in
  let stored :=
    ∃ f imageUrl ev,
      file = Some f ∧ Routes.imgbb w f = Some imageUrl
      ∧ Routes.cast w
          (Routes.mkDraft (Routes.f_title body) (Routes.f_description body)
             (Routes.f_date body) (Routes.f_location body)
             (Routes.f_capacity body) imageUrl userId) = Some ev
      ∧ db !! Routes.new_id w = None
      ∧ r = (<[Routes.new_id w := ev]> db,
             Routes.mkReply 201 (Routes.PDoc (Some (Routes.new_id w, ev)))) in
  (Routes.code r.2 = 201 ↔ stored)
  ∧ (Routes.code r.2 ≠ 201 →
       r.1 = db
       ∧ r.2 ∈ [Routes.mkReply 400 (Routes.PMessage "Image is required");
                Routes.mkReply 500 (Routes.PError "Server Error")])
  ∧ (∀ e ev, db !! e = Some ev → r.1 !! e = Some ev)
  ∧ (file = None →
       r = (db, Routes.mkReply 400 (Routes.PMessage "Image is required"))
       ∧ Routes.effects w (Routes.create_event userId body file) db = []).
Proof.
  intros r stored. subst r stored.
  destruct file as [f|]; simpl.
  2: { split; [split; [done|]; intros H;
               destruct H as (? & ? & ? & ? & ? & ? & ? & ?); simplify_eq|].
       split; [intros _; split; [done | set_solver]|]. done. }
  destruct (Routes.imgbb w f) as [imageUrl|] eqn:Hup; simpl.
  2: { split; [split; [done|]; intros H;
               destruct H as (? & ? & ? & ? & ? & ? & ? & ?); simplify_eq|].
       split; [intros _; split; [done | set_solver]|]. done. }
  unfold Routes.save.
  destruct (Routes.cast w _) as [ev|] eqn:Hcast; simpl.
  2: { split; [split; [done|]; intros H;
               destruct H as (? & ? & ? & ? & ? & ? & ? & ?); simplify_eq|].
       split; [intros _; split; [done | set_solver]|]. done. }
  destruct (db !! Routes.new_id w) as [old|] eqn:Hid; simpl.
  { split; [split; [done|]; intros H;
            destruct H as (? & ? & ? & ? & ? & ? & ? & ?); simplify_eq|].
    split; [intros _; split; [done | set_solver]|]. done. }
  split.
  { split; [|done]. intros _. exists f, imageUrl, ev. by rewrite Hcast. }
  split; [done|]. split; [|done].
  intros e ev' He. rewrite lookup_insert_ne; [done|]. intros <-. congruence.
Qed.

Example create_event_stores :
  Routes.run_route sample_driver
    (Routes.create_event "alice" sample_form (Some "png-bytes"))
    {[ "e1" := sample 2 ["bob"] ]}
  = ({[ "e1" := sample 2 ["bob"];
        "e9" := mkEvent "Meetup" "Monthly meetup" "2025-06-15" "Pune" 3
                  "https://i.ibb.co/x.png" "alice" [] ]},
     Routes.mkReply 201
       (Routes.PDoc
          (Some ("e9", mkEvent "Meetup" "Monthly meetup" "2025-06-15" "Pune" 3
                         "https://i.ibb.co/x.png" "alice" [])))).
Proof. vm_compute. reflexivity. Qed.

(** ** The client against the server *)

Section ClientFacts.
Import Client.
Implicit Types (db : store) (ev : Event) (u : User) (event : EventJson).

Lemma isFull_true event :
  isFull event = true
  ↔ e_capacity event ≤ Z.of_nat (length (e_attendees event)).
Proof. unfold isFull. rewrite bool_decide_eq_true. lia. Qed.

Lemma isJoined_true u event :
  isJoined (Some u) event = true ↔ user_id u ∈ e_attendees event.
Proof. unfold isJoined, includes. by rewrite bool_decide_eq_true. Qed.

End ClientFacts.



(** X11: when the card shows the stored event, its RSVP button is
    disabled exactly when a join by the user would be answered
    "Event is full". *)
Theorem disabled_button_matches_refusal
    (db : store) (u : Client.User) (event : Client.EventJson)
    (b : Client.button) :
  Client.shows event db →
  Client.rsvp_button (Some u) event = Some b →
  (Client.disabled b = true
   ↔ (run (rsvp (Client.user_id u) (Client.e__id event) (JStr "join")) db).2
     = CapacityExceeded).
Proof.
  intros (ev & He & Hatt & Hcap) Hb. injection Hb as <-.
  cbn [Client.disabled]. rewrite run_join, He.
  rewrite andb_true_iff, negb_true_iff, isFull_true.
  change (includes (Client.e_attendees event) (Client.user_id u))
    with (Client.isJoined (Some u) event).
  rewrite <- not_true_iff_false, isJoined_true, Hatt, Hcap.
  destruct (join_filter (Client.user_id u) ev) eqn:Hf; cbn [snd].
  - apply join_filter_true in Hf as [Hnin Hlt].
    split; [intros [_ Hle]; lia | discriminate].
  - rewrite (classify_rejected _ _ Hf). unfold includes.
    destruct (decide (Client.user_id u ∈ attendees ev)) as [Hin|Hnin].
    + rewrite bool_decide_eq_true_2 by done.
      split; [intros [Hn _]; done | discriminate].
    + rewrite bool_decide_eq_false_2 by done.
      apply join_filter_false in Hf as [Hin|Hle]; [done|].
      split; [done | intros _; split; [done | lia]].
Qed.

Lemma disabled_button_matches_refusal_witness :
  (run (rsvp "carol" "e1" (JStr "join")) {[ "e1" := sample 1 ["alice"] ]}).2
  = CapacityExceeded.
Proof.
  assert (Hs : Client.shows (card 1 ["alice"]) {[ "e1" := sample 1 ["alice"] ]}).
  { exists (sample 1 ["alice"]). repeat split. }
  exact (proj1 (disabled_button_matches_refusal
           {[ "e1" := sample 1 ["alice"] ]} carol (card 1 ["alice"]) _
           Hs eq_refl) eq_refl).
Defined.

(** X12: what the dashboard does with an RSVP.  Without a token it sends
    nothing and alerts "Please login to RSVP".  With one, a join ends in
    a new fetch when it is accepted and otherwise in an alert with the
    reason of the server; a leave ends in a new fetch when the event
    exists and in the alert "RSVP Failed" when it does not, the answer
    of the server then carrying no message. *)
Theorem handleRSVP_reaction
    (db : store) (token : option string) (userId eventId action : string) :
  (Client.truthy token = false →
     Client.handleRSVP token userId eventId action db
     = (db, Client.Alert "Please login to RSVP"))
  ∧ (Client.truthy token = true →
       (Client.handleRSVP token userId eventId "join" db).2
       = match db !! eventId with
         | None => Client.Alert "Event not found"
         | Some ev =>
             if decide (userId ∈ attendees ev)
             then Client.Alert "Already RSVPed"
             else if decide (capacity ev ≤ Z.of_nat (length (attendees ev)))
             then Client.Alert "Event is full"
             else Client.FetchEvents
         end
       ∧ (Client.handleRSVP token userId eventId "leave" db).2
         = match db !! eventId with
           | None => Client.Alert "RSVP Failed"
           | Some _ => Client.FetchEvents
           end
       ∧ (Client.handleRSVP token userId eventId "join" db).1
         = (run (serve (Join eventId userId)) db).1
       ∧ (Client.handleRSVP token userId eventId "leave" db).1
         = (run (serve (Leave eventId userId)) db).1).
Proof.
  unfold Client.handleRSVP. split; [by intros ->|]. intros ->.
  change (serve (Join eventId userId)) with (rsvp userId eventId (JStr "join")).
  change (serve (Leave eventId userId)) with (rsvp userId eventId (JStr "leave")).
  rewrite run_join, run_leave.
  destruct (db !! eventId) as [ev|]; [|done].
  split_and!; try done.
  - destruct (join_filter userId ev) eqn:Hf.
    + apply join_filter_true in Hf as [Hnin Hlt].
      rewrite decide_False by done. by rewrite decide_False by lia.
    + rewrite (classify_rejected _ _ Hf). unfold includes.
      destruct (decide (userId ∈ attendees ev)) as [Hin|Hnin].
      * by rewrite (bool_decide_eq_true_2 (userId ∈ attendees ev)).
      * rewrite (bool_decide_eq_false_2 (userId ∈ attendees ev)) by done.
        apply join_filter_false in Hf as [Hin|Hle]; [done|].
        by rewrite decide_True.
  - destruct (join_filter userId ev) eqn:Hf; [done|].
    rewrite (classify_rejected _ _ Hf). by destruct (includes _ _).
Qed.

Lemma handleRSVP_reaction_witness :
  Client.handleRSVP (Some "") "carol" "e1" "join"
    {[ "e1" := sample 2 ["alice"] ]}
  = ({[ "e1" := sample 2 ["alice"] ]}, Client.Alert "Please login to RSVP")
  ∧ (Client.handleRSVP (Some "jwt") "carol" "ghost-event" "leave" ∅).2
    = Client.Alert "RSVP Failed".
Proof.
  split.
  - exact (proj1 (handleRSVP_reaction {[ "e1" := sample 2 ["alice"] ]}
                    (Some "") "carol" "e1" "join") eq_refl).
  - exact (proj1 (proj2 (proj2 (handleRSVP_reaction ∅ (Some "jwt") "carol"
                                  "ghost-event" "join") eq_refl))).
Defined.

(** X13: a login with a token that is not empty survives a page load,
    as long as reading back what [JSON.stringify] wrote gives the user:
    after the load the user is restored, loading is over, the storage is
    as the login left it and a protected page shows its children.  A
    login with the empty token does not survive: after the load there is
    no user. *)
Theorem login_survives_reload
    (stringify : Client.User → string)
    (parse : string → option (option Client.User))
    (token : string) (userData : Client.User) (s : Client.session) :
  token ≠ "" →
  stringify userData ≠ "" →
  parse (stringify userData) = Some (Some userData) →
  let ls := Client.localStorage (Client.login stringify token userData s) in
  Client.checkLoggedIn parse (Client.mount ls)
  = Client.mkSession (Some userData) false ls
  ∧ Client.ProtectedRoute (Client.checkLoggedIn parse (Client.mount ls))
    = Client.Children
  ∧ Client.user
      (Client.checkLoggedIn parse
         (Client.mount
            (Client.localStorage (Client.login stringify "" userData s))))
    = None.
Proof.
  intros Htok Hstr Hparse ls. subst ls.
  unfold Client.checkLoggedIn, Client.login, Client.mount, Client.ProtectedRoute.
  cbn [Client.localStorage Client.user Client.loading].
  rewrite !(lookup_insert_ne _ "user" "auth-token") by done.
  rewrite !lookup_insert_eq. cbn [Client.truthy default].
  rewrite (bool_decide_eq_false_2 (token = "")) by done.
  rewrite (bool_decide_eq_false_2 (stringify userData = "")) by done.
  cbn [negb]. unfold id. rewrite Hparse. done.
Qed.

Lemma login_survives_reload_witness :
  Client.user
    (Client.checkLoggedIn sample_parse
       (Client.mount
          (Client.localStorage
             (Client.login sample_stringify "jwt" carol (Client.mount ∅)))))
  = Some carol.
Proof.
  assert (Htok : "jwt" ≠ "") by discriminate.
  assert (Hstr : sample_stringify carol ≠ "") by discriminate.
  assert (Hparse : sample_parse (sample_stringify carol) = Some (Some carol))
    by reflexivity.
  rewrite (proj1 (login_survives_reload sample_stringify sample_parse "jwt"
                    carol (Client.mount ∅) Htok Hstr Hparse)).
  reflexivity.
Defined.

(** X14: after a logout a page load finds no user, whatever the storage
    held before and whatever [JSON.parse] would read: loading is over,
    a protected page sends to ["/login"], and an RSVP from the dashboard
    sends nothing and alerts "Please login to RSVP". *)
Theorem logout_then_reload
    (parse : string → option (option Client.User)) (s : Client.session) :
  let s' := Client.checkLoggedIn parse
              (Client.mount (Client.localStorage (Client.logout s))) in
  Client.user s' = None
  ∧ Client.loading s' = false
  ∧ Client.ProtectedRoute s' = Client.NavigateTo "/login"
  ∧ ∀ db userId eventId action,
      Client.handleRSVP (Client.localStorage s' !! "auth-token")
        userId eventId action db
      = (db, Client.Alert "Please login to RSVP").
Proof.
  intros s'. subst s'.
  unfold Client.checkLoggedIn, Client.logout, Client.mount, Client.ProtectedRoute.
  cbn [Client.localStorage Client.user Client.loading].
  rewrite !(lookup_insert_ne _ "user" "auth-token") by done.
  rewrite !lookup_insert_eq. cbn [Client.truthy default].
  split_and!; try done.
  intros db userId eventId action. unfold Client.handleRSVP.
  rewrite (lookup_insert_ne _ "user" "auth-token") by done.
  by rewrite lookup_insert_eq.
Qed.

(** X15: when the list shows the stored events, what the dashboard
    keeps after the server deleted an event is again the list of the
    stored events: the cards of that [_id] are gone, the other cards are
    kept, in their order. *)
Theorem drop_event_mirrors_delete
    (db : store) (events : list Client.EventJson) (eventId : string) :
  Client.lists events db →
  Client.lists (Client.drop_event eventId events) (Routes.deleteOne eventId db)
  ∧ (∀ c, c ∈ Client.drop_event eventId events
          ↔ c ∈ events ∧ Client.e__id c ≠ eventId)
  ∧ Client.drop_event eventId events `sublist_of` events.
Proof.
  intros Hl. unfold Client.drop_event, Routes.deleteOne.
  assert (Hin : ∀ c, c ∈ filter (λ e, Client.e__id e ≠ eventId) events
                     ↔ c ∈ events ∧ Client.e__id c ≠ eventId).
  { intros c. rewrite list_elem_of_filter. tauto. }
  split; [|split; [done | apply sublist_filter]].
  intros i. rewrite lookup_delete_is_Some, <- (Hl i), !list_elem_of_fmap.
  split.
  - intros (c & -> & [Hc Hne]%Hin). split; [done|]. by exists c.
  - intros [Hne (c & -> & Hc)]. exists c. split; [done|].
    apply Hin. split; [done|]. by intros H'.
Qed.

Lemma drop_event_mirrors_delete_witness :
  Client.lists
    (Client.drop_event "e1" [card 2 ["alice"]])
    (Routes.deleteOne "e1" {[ "e1" := sample 2 ["alice"] ]}).
Proof.
  assert (Hl : Client.lists [card 2 ["alice"]] {[ "e1" := sample 2 ["alice"] ]}).
  { intros i. simpl. rewrite list_elem_of_singleton. split.
    - intros ->. by eexists.
    - intros [ev Hev]. destruct (decide (i = "e1")) as [->|Hne]; [done|].
      rewrite lookup_singleton_ne in Hev by done. discriminate Hev. }
  exact (proj1 (drop_event_mirrors_delete _ _ "e1" Hl)).
Defined.

(** X16: when the card shows the organizer the event is stored with,
    the delete button is there exactly when the delete route would
    accept the user: the card and the server agree on who owns the
    event. *)
Theorem owner_button_matches_delete
    (w : Routes.driver) (db : store) (u : Client.User)
    (event : Client.EventJson) (ev : Event) (o : Client.Organizer) :
  db !! Client.e__id event = Some ev →
  Client.e_organizer event = Some o →
  Client.o__id o = organizer ev →
  (Client.o_id o = None ∨ Client.o_id o = Some (Client.o__id o)) →
  (Client.isOwner (Some u) event = true
   ↔ (Routes.run_route w
        (Routes.delete_event (Client.user_id u) (Client.e__id event)) db).2
     = Routes.mkReply 200 (Routes.PMessage "Event removed")).
Proof.
  intros He Ho Hid Hvirt. rewrite run_delete_event, He.
  unfold Client.isOwner. rewrite Ho, orb_true_iff, !bool_decide_eq_true, Hid.
  destruct (decide (organizer ev = Client.user_id u)) as [Heq|Hne]; simpl.
  - split; [done | by left].
  - split; [|discriminate]. intros [H|H]; [done|].
    destruct Hvirt as [Hn|Hs]; rewrite H in *; [discriminate|].
    injection Hs as Hs. congruence.
Qed.

Lemma owner_button_matches_delete_witness :
  Client.isOwner (Some (Client.mkUser "org" "Olga")) (card 2 ["alice"]) = true.
Proof.
  assert (He : ({[ "e1" := sample 2 ["alice"] ]} : store)
               !! Client.e__id (card 2 ["alice"])
               = Some (sample 2 ["alice"])) by reflexivity.
  apply (owner_button_matches_delete no_driver _
           (Client.mkUser "org" "Olga") (card 2 ["alice"]) _ _
           He eq_refl eq_refl (or_introl eq_refl)).
  reflexivity.
Defined.

(** X17: the progress of the create form counts the filled inputs and
    the chosen image: it never exceeds the six fields, and it reaches
    them exactly when the five inputs are not empty and an image is
    chosen. *)
Theorem progress_complete_iff (fd : Client.formData) (image : option string) :
  (Client.progress fd image ≤ Client.totalFields)%nat
  ∧ (Client.progress fd image = Client.totalFields
     ↔ Client.fd_title fd ≠ "" ∧ Client.fd_description fd ≠ ""
       ∧ Client.fd_date fd ≠ "" ∧ Client.fd_location fd ≠ ""
       ∧ Client.fd_capacity fd ≠ "" ∧ is_Some image).
Proof.
  unfold Client.progress, Client.totalFields.
  destruct fd as [t d a l c]. cbn [Client.fd_title Client.fd_description
    Client.fd_date Client.fd_location Client.fd_capacity].
  rewrite !filter_cons, filter_nil.
  destruct image as [i|];
    destruct (decide (t ≠ "")), (decide (d ≠ "")), (decide (a ≠ "")),
      (decide (l ≠ "")), (decide (c ≠ ""));
    simpl; (split; [lia|]);
    (split; [intros H; try discriminate H;
             repeat split; try done; by eexists
            | intros (? & ? & ? & ? & ? & [? ?]); try done]).
Qed.

(** ** More on joins and leaves *)

Section Rounds.
Implicit Types (db : store) (ev : Event) (e u : string) (l : list string).

Lemma pull_pushed u l : u ∉ l → filter (λ x, x ≠ u) (l ++ [u]) = l.
Proof.
  intros Hnin. rewrite filter_app, pull_absent by done.
  rewrite filter_cons_False by (intros H; by apply H).
  by rewrite filter_nil, app_nil_r.
Qed.

Lemma count_successful_cons r rs :
  count_successful (r :: rs)
  = ((if is_successful r then 1 else 0) + count_successful rs)%nat.
Proof.
  unfold count_successful. rewrite filter_cons.
  destruct (is_successful r); by case_decide.
Qed.

(** Joins of [e] by users who are not attendees and are all different,
    served one after the other: the first ones are accepted, in order,
    until the event is full. *)
Lemma joins_in_order e (us : list string) :
  ∀ db ev,
    db !! e = Some ev → NoDup us → (∀ u, u ∈ us → u ∉ attendees ev) →
    let k := Z.to_nat (capacity ev - Z.of_nat (length (attendees ev))) in
    (run_requests (Join e <$> us) db).1
    = <[e := set_attendees (attendees ev ++ take k us) ev]> db
    ∧ count_successful (run_requests (Join e <$> us) db).2
      = length (take k us).
Proof.
  induction us as [|u us IH]; intros db ev He Hnd Hfresh k.
  { simpl. rewrite take_nil, app_nil_r, set_attendees_same.
    split; [by rewrite insert_id | done]. }
  rewrite fmap_cons, run_requests_cons.
  change (serve (Join e u)) with (rsvp u e (JStr "join")).
  rewrite run_join, He. cbn [fst snd]. rewrite count_successful_cons.
  apply NoDup_cons in Hnd as [Hu Hnd].
  assert (Hnin : u ∉ attendees ev) by (apply Hfresh; left).
  destruct (join_filter u ev) eqn:Hf.
  - apply join_filter_true in Hf as [_ Hlt]. cbn [fst snd].
    specialize (IH (<[e := push_attendees u ev]> db) (push_attendees u ev)).
    rewrite lookup_insert_eq in IH. specialize (IH eq_refl Hnd).
    assert (Hfresh' : ∀ v, v ∈ us → v ∉ attendees (push_attendees u ev)).
    { intros v Hv. simpl. rewrite elem_of_app, list_elem_of_singleton.
      intros [Hin| ->]; [|done]. apply (Hfresh v); [by right | done]. }
    destruct (IH Hfresh') as [IH1 IH2]. clear IH.
    assert (Hk : k = S (Z.to_nat (capacity (push_attendees u ev)
                   - Z.of_nat (length (attendees (push_attendees u ev)))))).
    { unfold k. simpl. rewrite length_app. simpl. lia. }
    rewrite IH1, IH2, Hk, insert_insert_eq. simpl.
    by rewrite <- app_assoc.
  - apply join_filter_false in Hf as [Hin|Hle]; [done|].
    destruct (IH db ev He Hnd) as [IH1 IH2].
    { intros v Hv. apply Hfresh. by right. }
    assert (Hk : k = 0%nat) by (unfold k; lia).
    rewrite Hk in *.
    replace (Z.to_nat (capacity ev - Z.of_nat (length (attendees ev))))
      with 0%nat in * by lia.
    cbn [fst snd]. rewrite IH1, IH2.
    pose proof (classify_not_successful u (Some ev)) as Hn.
    rewrite Hn. done.
Qed.

End Rounds.

(** X18: a join that is accepted and the leave of the same user right
    after it bring the store back to what it was: the leave answers with
    the attendees of before the join. *)
Theorem join_then_leave_restores
    (db : store) (eventId userId : string) (ev : Event) :
  db !! eventId = Some ev →
  userId ∉ attendees ev →
  Z.of_nat (length (attendees ev)) < capacity ev →
  run_requests [Join eventId userId; Leave eventId userId] db
  = (db, [RsvpSuccessful (attendees ev ++ [userId]);
          RsvpCancelled (attendees ev)]).
Proof.
  intros He Hnin Hlt.
  assert (Hf : join_filter userId ev = true) by by apply join_filter_true.
  rewrite run_requests_cons.
  change (serve (Join eventId userId)) with (rsvp userId eventId (JStr "join")).
  rewrite run_join, He, Hf. cbn [fst snd]. rewrite run_requests_cons.
  change (serve (Leave eventId userId)) with (rsvp userId eventId (JStr "leave")).
  rewrite run_leave, lookup_insert_eq. cbn [fst snd run_requests].
  unfold pull_attendees, push_attendees. simpl.
  rewrite pull_pushed by done. rewrite insert_insert_eq.
  f_equal. apply insert_id. rewrite He. by destruct ev.
Qed.

Lemma join_then_leave_restores_witness :
  let db : store := {[ "e1" := sample 2 ["alice"] ]} in
  run_requests [Join "e1" "bob"; Leave "e1" "bob"] db
  = (db, [RsvpSuccessful ["alice"; "bob"]; RsvpCancelled ["alice"]]).
Proof.
  intros db.
  assert (He : db !! "e1" = Some (sample 2 ["alice"])) by reflexivity.
  assert (Hnin : "bob" ∉ attendees (sample 2 ["alice"])).
  { simpl. intros H. apply list_elem_of_singleton in H. discriminate H. }
  assert (Hlt : Z.of_nat (length (attendees (sample 2 ["alice"])))
                < capacity (sample 2 ["alice"])) by (simpl; lia).
  exact (join_then_leave_restores db "e1" "bob" _ He Hnin Hlt).
Defined.

(** X19: joins of one event by users who are not attendees and are all
    different, served one after the other from an event within its
    capacity, are accepted first come first served until the event is
    full: with [C - M] places left, the first [C - M] users are added in
    their order, exactly [min N (C - M)] of the [N] joins are accepted,
    and every other one is answered "Event is full". *)
Theorem joins_first_come_first_served
    (db : store) (eventId : string) (ev : Event) (us : list string) :
  db !! eventId = Some ev →
  Z.of_nat (length (attendees ev)) ≤ capacity ev →
  NoDup us →
  (∀ u, u ∈ us → u ∉ attendees ev) →
  let free := Z.to_nat (capacity ev - Z.of_nat (length (attendees ev))) in
  let r := run_requests (Join eventId <$> us) db in
  r.1 !! eventId = Some (set_attendees (attendees ev ++ take free us) ev)
  ∧ count_successful r.2 = (length us `min` free)%nat
  ∧ (∀ a, a ∈ r.2 → is_successful a = true ∨ a = CapacityExceeded).
Proof.
  intros He Hle Hnd Hfresh free r. subst r.
  destruct (joins_in_order eventId us db ev He Hnd Hfresh) as [H1 H2].
  fold free in H1, H2. rewrite H1, H2, lookup_insert_eq, length_take.
  split; [done|]. split; [lia|].
  clear H1 H2 free Hle. revert db ev He Hnd Hfresh.
  induction us as [|u us IH]; intros db ev He Hnd Hfresh a Ha.
  { simpl in Ha. by apply elem_of_nil in Ha. }
  rewrite fmap_cons, run_requests_cons in Ha.
  change (serve (Join eventId u)) with (rsvp u eventId (JStr "join")) in Ha.
  rewrite run_join, He in Ha.
  apply NoDup_cons in Hnd as [Hu Hnd].
  assert (Hnin : u ∉ attendees ev) by (apply Hfresh; left).
  destruct (join_filter u ev) eqn:Hf; cbn [fst snd] in Ha;
    apply elem_of_cons in Ha as [->|Ha].
  - by left.
  - apply (IH (<[eventId := push_attendees u ev]> db) (push_attendees u ev));
      [by rewrite lookup_insert_eq | done | | done].
    intros v Hv. simpl. rewrite elem_of_app, list_elem_of_singleton.
    intros [Hin| ->]; [|done]. apply (Hfresh v); [by right | done].
  - right. rewrite (classify_rejected _ _ Hf). unfold includes.
    by rewrite bool_decide_eq_false_2.
  - apply (IH db ev He Hnd); [|done]. intros v Hv. apply Hfresh. by right.
Qed.

Lemma joins_first_come_first_served_witness :
  let db : store := {[ "e1" := sample 3 ["alice"] ]} in
  count_successful
    (run_requests (Join "e1" <$> ["bob"; "carol"; "dave"]) db).2 = 2%nat.
Proof.
  intros db.
  assert (He : db !! "e1" = Some (sample 3 ["alice"])) by reflexivity.
  assert (Hle : Z.of_nat (length (attendees (sample 3 ["alice"])))
                ≤ capacity (sample 3 ["alice"])) by (simpl; lia).
  assert (Hnd : NoDup ["bob"; "carol"; "dave"]).
  { refine (bool_decide_unpack _ _). vm_compute. exact I. }
  assert (Hfresh : ∀ u, u ∈ ["bob"; "carol"; "dave"]
                        → u ∉ attendees (sample 3 ["alice"])).
  { intros u Hu Ha. simpl in Ha. apply list_elem_of_singleton in Ha. subst u.
    repeat (apply elem_of_cons in Hu as [Hu|Hu]; [discriminate Hu|]).
    by apply elem_of_nil in Hu. }
  exact (proj1 (proj2 (joins_first_come_first_served db "e1" _ _
                         He Hle Hnd Hfresh))).
Defined.

(** ** Joins in flight together *)

Section Filling.
Variables (e : string) (C M : Z) (us : list string).
Hypothesis us_different : NoDup us.
Implicit Types (db : store) (ev : Event) (u : string) (pool : list handler).

Lemma step_filling db pool i h :
  filling e C M us db pool → pool !! i = Some h →
  filling e C M us (step h db).1 (<[i := (step h db).2]> pool).
Proof.
  intros (ev & He & HC & Hlen & Hcap & Hsame & Hst) Hi.
  assert (Hlt : (i < length us)%nat).
  { rewrite Hsame. by eapply lookup_lt_Some. }
  destruct (lookup_lt_is_Some_2 us i Hlt) as [u Hu].
  destruct (Hst i u h Hu Hi) as [[-> Hnin]|[[[-> | ->] [Hnin Hfull]]|[l ->]]].
  - (* the conditional update *)
    simpl. unfold findOneAndUpdate. rewrite He.
    destruct (join_filter u ev) eqn:Hf; simpl.
    + apply join_filter_true in Hf as [_ Hroom].
      pose proof (count_joined_insert pool i _
        (Respond (RsvpSuccessful (attendees ev ++ [u]))) Hi) as Hcount.
      simpl in Hcount.
      exists (push_attendees u ev). rewrite lookup_insert_eq.
      split; [done|]. split; [done|]. simpl. rewrite length_app. simpl.
      unfold RsvpSuccessful in Hcount.
      split; [lia|]. split; [lia|]. split; [by rewrite length_insert|].
      intros j v hj Hv Hj.
      destruct (decide (i = j)) as [<-|Hne].
      * rewrite list_lookup_insert_eq in Hj by lia.
        injection Hj as <-. right; right. by eexists.
      * rewrite list_lookup_insert_ne in Hj by done.
        assert (Hvu : v ≠ u).
        { intros ->. apply Hne. by eapply NoDup_lookup. }
        assert (Hkeep : v ∉ attendees ev → v ∉ attendees ev ++ [u]).
        { intros Hv' [?| ->%list_elem_of_singleton]%elem_of_app; done. }
        destruct (Hst j v hj Hv Hj) as [[-> Hn]|[[Hh [Hn Hf]]|Hs]].
        -- left. split; [done|]. by apply Hkeep.
        -- right; left. split; [done|]. split; [by apply Hkeep|].
           simpl. rewrite length_app. simpl. lia.
        -- by right; right.
    + apply join_filter_false in Hf as [Hin|Hfull]; [done|].
      pose proof (count_joined_insert pool i _
        (Await (FindById e) (λ cur, Respond (classify u cur))) Hi) as Hcount.
      simpl in Hcount.
      exists ev. split; [done|]. split; [done|].
      replace (count_joined (<[i:=_]> pool)) with (count_joined pool) by lia.
      split; [done|]. split; [done|]. split; [by rewrite length_insert|].
      intros j v hj Hv Hj.
      destruct (decide (i = j)) as [<-|Hne].
      * rewrite list_lookup_insert_eq in Hj by lia.
        injection Hj as <-. assert (v = u) as -> by congruence.
        right; left. split; [by left|]. done.
      * rewrite list_lookup_insert_ne in Hj by done. by apply (Hst j).
  - (* the read after a refusal *)
    simpl. rewrite He.
    assert (Hc : classify u (Some ev) = CapacityExceeded).
    { unfold classify, includes.
      rewrite bool_decide_eq_false_2 by done.
      by rewrite bool_decide_eq_true_2 by lia. }
    rewrite Hc.
    pose proof (count_joined_insert pool i _ (Respond CapacityExceeded) Hi)
      as Hcount.
    simpl in Hcount.
    exists ev. split; [done|]. split; [done|].
    replace (count_joined (<[i:=_]> pool)) with (count_joined pool) by lia.
    split; [done|]. split; [done|]. split; [by rewrite length_insert|].
    intros j v hj Hv Hj.
    destruct (decide (i = j)) as [<-|Hne].
    + rewrite list_lookup_insert_eq in Hj by lia.
      injection Hj as <-. assert (v = u) as -> by congruence.
      right; left. split; [by right|]. done.
    + rewrite list_lookup_insert_ne in Hj by done. by apply (Hst j).
  - simpl. rewrite list_insert_id by done. exists ev. eauto 10.
  - simpl. rewrite list_insert_id by done. exists ev. eauto 10.
Qed.

Lemma run_schedule_filling sched :
  ∀ db pool, filling e C M us db pool →
    filling e C M us (run_schedule sched db pool).1
      (run_schedule sched db pool).2.
Proof.
  induction sched as [|i sched IH]; simpl; intros db pool Hf; [done|].
  destruct (pool !! i) as [h|] eqn:Hi; [|by apply IH].
  pose proof (step_filling db pool i h Hf Hi) as H1.
  destruct (step h db) as [db' h']. by apply IH.
Qed.

Lemma count_joined_all pool :
  Forall (λ h, joined h = true) pool → count_joined pool = length pool.
Proof.
  unfold count_joined. induction 1 as [|h pool Hh _ IH]; [done|].
  rewrite filter_cons_True by done. simpl. by rewrite IH.
Qed.

Lemma count_joined_le pool : (count_joined pool ≤ length pool)%nat.
Proof. apply length_filter. Qed.

(** Once every join has its answer: the places are taken as far as
    there are joins for them. *)
Lemma filling_done db pool :
  filling e C M us db pool →
  Forall (λ h, is_Some (answered h)) pool →
  Z.of_nat (count_joined pool) = Z.min (Z.of_nat (length us)) (C - M)
  ∧ Forall (λ h, joined h = true ∨ h = Respond CapacityExceeded) pool.
Proof.
  intros (ev & He & HC & Hlen & Hcap & Hsame & Hst) Hans.
  assert (Hshape : Forall (λ h, joined h = true
                                ∨ (h = Respond CapacityExceeded
                                   ∧ C ≤ Z.of_nat (length (attendees ev))))
                     pool).
  { apply Forall_lookup. intros i h Hi.
    assert (Hlt : (i < length us)%nat).
    { rewrite Hsame. by eapply lookup_lt_Some. }
    destruct (lookup_lt_is_Some_2 us i Hlt) as [u Hu].
    pose proof (proj1 (Forall_lookup _ _) Hans i h Hi) as [r Hr].
    destruct (Hst i u h Hu Hi) as [[-> _]|[[[-> | ->] [_ Hfull]]|[l ->]]];
      try discriminate Hr.
    - right. split; [done | lia].
    - by left. }
  split; [|eapply Forall_impl; [exact Hshape | intros h [?|[? _]]; eauto]].
  pose proof (count_joined_le pool) as Hle.
  destruct (decide (Forall (λ h, joined h = true) pool)) as [Hall|Hsome].
  - rewrite (count_joined_all pool Hall) in *. lia.
  - assert (Hfull : C ≤ Z.of_nat (length (attendees ev))).
    { apply not_Forall_Exists in Hsome; [|apply _].
      apply Exists_exists in Hsome as (h & Hin & Hno).
      pose proof (proj1 (Forall_forall _ _) Hshape h Hin) as [Hj|[_ Hf]];
        [done | lia]. }
    lia.
Qed.

End Filling.

(** X20: joins of one event in flight together, by users who are all
    different and were not attendees, from an event within its capacity:
    whatever the order of their store calls, once every join has its
    answer exactly [min N (C - M)] of the [N] joins are accepted, every
    other one is answered "Event is full", and the event has its [M]
    attendees and one more per accepted join. *)
Theorem concurrent_joins_fill_capacity
    (db : store) (eventId : string) (ev : Event)
    (us : list string) (sched : list nat) :
  db !! eventId = Some ev →
  Z.of_nat (length (attendees ev)) ≤ capacity ev →
  NoDup us →
  (∀ u, u ∈ us → u ∉ attendees ev) →
  let r := run_schedule sched db ((λ u, serve (Join eventId u)) <$> us) in
  Forall (λ h, is_Some (answered h)) r.2 →
  Z.of_nat (count_joined r.2)
  = Z.min (Z.of_nat (length us))
      (capacity ev - Z.of_nat (length (attendees ev)))
  ∧ Forall (λ h, joined h = true ∨ h = Respond CapacityExceeded) r.2
  ∧ ∃ ev', r.1 !! eventId = Some ev'
           ∧ length (attendees ev')
             = (length (attendees ev) + count_joined r.2)%nat.
Proof.
  intros He Hle Hnd Hfresh r Hans. subst r.
  assert (H0 : filling eventId (capacity ev) (Z.of_nat (length (attendees ev)))
                 us db ((λ u, serve (Join eventId u)) <$> us)).
  { exists ev. change (λ u, serve (Join eventId u))
      with (λ u, rsvp u eventId (JStr "join")).
    rewrite count_joined_fresh.
    split; [done|]. split; [done|]. split; [lia|]. split; [lia|].
    split; [by rewrite length_fmap|].
    intros i u h Hu Hi. rewrite list_lookup_fmap, Hu in Hi.
    injection Hi as <-. left. split; [done|].
    apply Hfresh. by eapply list_elem_of_lookup_2. }
  pose proof (run_schedule_filling eventId _ _ us Hnd sched _ _ H0) as Hf.
  destruct (filling_done eventId _ _ us _ _ Hf Hans) as [Hn Hshape].
  split; [done|]. split; [done|].
  destruct Hf as (ev' & He' & _ & Hlen & _).
  exists ev'. split; [done|]. lia.
Qed.

Lemma concurrent_joins_fill_capacity_witness :
  let db : store := {[ "e1" := sample 2 ["alice"] ]} in
  Z.of_nat (count_joined
              (run_schedule [1%nat; 0%nat; 0%nat] db
                 ((λ u, serve (Join "e1" u)) <$> ["bob"; "carol"])).2) = 1.
Proof.
  intros db.
  assert (He : db !! "e1" = Some (sample 2 ["alice"])) by reflexivity.
  assert (Hle : Z.of_nat (length (attendees (sample 2 ["alice"])))
                ≤ capacity (sample 2 ["alice"])) by (simpl; lia).
  assert (Hnd : NoDup ["bob"; "carol"]).
  { refine (bool_decide_unpack _ _). vm_compute. exact I. }
  assert (Hfresh : ∀ u, u ∈ ["bob"; "carol"]
                        → u ∉ attendees (sample 2 ["alice"])).
  { intros u Hu Ha. simpl in Ha. apply list_elem_of_singleton in Ha. subst u.
    repeat (apply elem_of_cons in Hu as [Hu|Hu]; [discriminate Hu|]).
    by apply elem_of_nil in Hu. }
  assert (Hans : Forall (λ h, is_Some (answered h))
                   (run_schedule [1%nat; 0%nat; 0%nat] db
                      ((λ u, serve (Join "e1" u)) <$> ["bob"; "carol"])).2).
  { vm_compute. repeat constructor; by eexists. }
  exact (proj1 (concurrent_joins_fill_capacity db "e1" _ _ _
                  He Hle Hnd Hfresh Hans)).
Defined.
